(** * asn1ate.sema: dependency ordering and the semantic node model

    A shallow embedding of [asn1ate/sema.py]: the two dependency orderings
    ([topological_sort], [dependency_sort]), the module facade
    ([Module.user_types], [Module.resolve_type_decl]) and the construction
    and rendering of sema nodes from annotated parse tokens.

    Python values are modelled as the code uses them:
    - a [dict] is an insertion-ordered association list with unique keys
      ([PyDict]): iteration order is observable in both sorts;
    - a [set] of names is a [gset string], and a loop visits it in an
      order ([Hashing]) on which no theorem depends;
    - a call either returns, raises an exception of [exn], or is cut off
      ([Cutoff]): the fuel of a loop or recursion ran out, or the result
      depends on code that is not part of [sema.py];
    - the entry points of the sorts are shown never to be cut off. *)

From Stdlib Require Import Ascii.
From stdpp Require Import base option list strings gmap pretty sorting relations.

Set Warnings "-register-all".

(** ** Exceptions and results *)

Inductive exn : Type :=
  | CyclicReferences (graph : list (string * gset string))
      (* Exception("Can't sort cyclic references: %s" % graph) *)
  | UnknownTokenType (ty : string)
      (* Exception('Unknown token type: %s' % token.ty) *)
  | AssertionError
  | AttributeError
  | IndexError
  | KeyError
  | TypeError
  | UnboundLocalError
  | ValueError.

Inductive result (A : Type) : Type :=
  | Return (a : A)
  | Raise (e : exn)
  | Cutoff.
Arguments Return {A} a.
Arguments Raise {A} e.
Arguments Cutoff {A}.

Definition result_bind {A B} (f : A → result B) (r : result A) : result B :=
  match r with
  | Return a => f a
  | Raise e => Raise e
  | Cutoff => Cutoff
  end.

#[global] Instance result_ret : MRet result := @Return.
#[global] Instance result_mbind : MBind result := @result_bind.
#[global] Instance result_fmap : FMap result :=
  fun A B f r => result_bind (fun a => Return (f a)) r.

(** Running a fallible step over a list, left to right. *)
Fixpoint for_each {A S} (body : A → S → result S) (l : list A) (s : S)
    : result S :=
  match l with
  | [] => Return s
  | x :: l' => s' ← body x s; for_each body l' s'
  end.

(** ** Insertion-ordered dictionaries *)

Module PyDict.
Section dict.
Context {K V : Type} `{EqDecision K}.

(** [d.get(k)] *)
Fixpoint get (k : K) (d : list (K * V)) : option V :=
  match d with
  | [] => None
  | (k', v) :: d' => if decide (k = k') then Some v else get k d'
  end.

(** [d[k] = v]: an existing key keeps its position, a new key goes last. *)
Fixpoint set (k : K) (v : V) (d : list (K * V)) : list (K * V) :=
  match d with
  | [] => [(k, v)]
  | (k', v') :: d' =>
      if decide (k = k') then (k, v) :: d' else (k', v') :: set k v d'
  end.

(** [del d[k]] where the key may be absent. *)
Fixpoint remove (k : K) (d : list (K * V)) : list (K * V) :=
  match d with
  | [] => []
  | (k', v) :: d' => if decide (k = k') then d' else (k', v) :: remove k d'
  end.

(** [d.pop(k, default)] *)
Definition pop (k : K) (dflt : V) (d : list (K * V)) : V * list (K * V) :=
  (default dflt (get k d), remove k d).

Definition keys (d : list (K * V)) : list K := d.*1.
Definition values (d : list (K * V)) : list V := d.*2.

(** [d[k] = v] for a pair [(k, v)] *)
Definition set_pair (d : list (K * V)) (kv : K * V) : list (K * V) :=
  set kv.1 kv.2 d.

(** [dict(pairs)] and dict comprehensions: pairs inserted left to right. *)
Definition of_pairs (l : list (K * V)) : list (K * V) :=
  foldl set_pair [] l.
End dict.
End PyDict.

(** ** Assignments as the sorts see them

    Both sorts are duck-typed: they use [reference_name()] and
    [references()] only, and (for [dependency_sort] and [sorted]) the
    identity of the assignment object.  [obj_id] stands for that identity:
    two distinct objects differ in it, so equality of records is object
    identity.  [references] is the set the method returns. *)

Record Assignment : Type := mkAssignment {
  obj_id : nat;
  reference_name : string;
  references : gset string
}.

#[global] Instance Assignment_eq_dec : EqDecision Assignment.
Proof. solve_decision. Defined.

#[global] Instance Assignment_countable : Countable Assignment :=
  inj_countable'
    (fun a => (obj_id a, reference_name a, references a))
    (fun t => mkAssignment t.1.1 t.1.2 t.2)
    (fun a => match a with mkAssignment _ _ _ => eq_refl end).

(** The order in which a loop visits a set of strings is not fixed by
    the language: it varies with the hash seed of the run.  [Hashing] is
    one such order, a function of the elements of the set; what is proved
    about the sorts holds for every one of them. *)
Class Hashing : Type := {
  iter : gset string → list string;
  iter_elem : ∀ s x, x ∈ iter s ↔ x ∈ s;
  iter_NoDup : ∀ s, NoDup (iter s)
}.

(** One of these orders, with which the examples are evaluated. *)
Definition by_elements : Hashing :=
  {| iter := elements;
     iter_elem := fun s x => elem_of_elements s x;
     iter_NoDup := fun s => NoDup_elements s |}.

(** ** [topological_sort] *)

Module Topo.

Abbreviation graph_t := (list (string * gset string)).

(** [graph = dict((a.reference_name(), a.references()) for a in assignments)] *)
Definition build_graph (assignments : list Assignment) : graph_t :=
  PyDict.of_pairs (map (fun a => (reference_name a, references a)) assignments).

Definition has_predecessor (graph : graph_t) (node : string) : bool :=
  existsb (fun predecessors => bool_decide (node ∈ predecessors))
          (PyDict.values graph).

(** [roots.pop()] on a non-empty list: the rest and the last element. *)
Fixpoint list_pop {A} (l : list A) : option (list A * A) :=
  match l with
  | [] => None
  | x :: l' =>
      match list_pop l' with
      | None => Some ([], x)
      | Some (r, y) => Some (x :: r, y)
      end
  end.

(** The body of the [while roots:] loop, after [root = roots.pop()]. *)
Definition step {seed : Hashing} (graph : graph_t) (roots : list string)
    (root : string)
    (topological_order : list string)
    : graph_t * list string * list string :=
  let '(successors, graph) := PyDict.pop root ∅ graph in
  let roots :=
    roots ++ filter (fun successor => has_predecessor graph successor = false)
                    (iter successors) in
  (graph, roots, root :: topological_order).

(** The [while roots:] loop; it is cut off when the fuel runs out. *)
Fixpoint loop {seed : Hashing} (fuel : nat) (graph : graph_t)
    (roots : list string)
    (topological_order : list string) : result (graph_t * list string) :=
  match list_pop roots with
  | None => Return (graph, topological_order)
  | Some (roots, root) =>
      match fuel with
      | 0 => Cutoff
      | S fuel =>
          let '(graph, roots, topological_order) :=
            step graph roots root topological_order in
          loop fuel graph roots topological_order
      end
  end.

(** [l.index(x)]: first position of [x]; [None] stands for the
    [ValueError] of an absent element. *)
Fixpoint index (x : string) (l : list string) : option nat :=
  match l with
  | [] => None
  | y :: l' => if decide (x = y) then Some 0 else S <$> index x l'
  end.

(** [sorted] is stable: an element goes before the first one whose key
    is not smaller. *)
Fixpoint insert_by_key {A} (x : nat * A) (l : list (nat * A))
    : list (nat * A) :=
  match l with
  | [] => [x]
  | y :: l' =>
      if decide (x.1 ≤ y.1) then x :: y :: l' else y :: insert_by_key x l'
  end.

Definition sort_by_key {A} (l : list (nat * A)) : list (nat * A) :=
  foldr insert_by_key [] l.

(** [sorted(xs, key=key)]: all keys are computed first, then the stable
    sort runs on them. *)
Definition sorted {A} (key : A → option nat) (xs : list A)
    : result (list A) :=
  match mapM (fun x => (fun k => (k, x)) <$> key x) xs with
  | None => Raise ValueError
  | Some kxs => Return (sort_by_key kxs).*2
  end.

(** Every iteration removes a root and pushes at most the successors of
    a graph entry that it deletes: this bounds the number of iterations. *)
Definition measure (graph : graph_t) (roots : list string) : nat :=
  length roots + sum_list (size <$> PyDict.values graph).

(** The state in which the loop stops: the graph that is left and the
    topological order of reference names. *)
Definition run {seed : Hashing} (assignments : list Assignment)
    : result (graph_t * list string) :=
  let graph := build_graph assignments in
  let roots :=
    filter (fun name => has_predecessor graph name = false)
           (PyDict.keys graph) in
  loop (measure graph roots) graph roots [].

Definition topological_sort {seed : Hashing} (assignments : list Assignment)
    : result (list Assignment) :=
  '(graph, topological_order) ← run assignments;
  match graph with
  | _ :: _ => Raise (CyclicReferences graph)
  | [] =>
      sorted (fun a => index (reference_name a) topological_order)
             assignments
  end.

(** The vocabulary of the claims about the sort. *)

(** Some entry of the graph lists [node]: [has_predecessor] as a
    proposition. *)
Definition referenced (graph : graph_t) (node : string) : Prop :=
  ∃ name predecessors, (name, predecessors) ∈ graph ∧ node ∈ predecessors.

(** [n] depends on [m]: the entry of [n] lists [m]. *)
Definition edge (graph : graph_t) (n m : string) : Prop :=
  ∃ successors, PyDict.get n graph = Some successors ∧ m ∈ successors.

(** [r] stands before an occurrence of [n] in [order]. *)
Definition before (r n : string) (order : list string) : Prop :=
  ∃ o1 o2, order = o1 ++ r :: o2 ∧ n ∈ o2.

(** What the loop maintains, for the graph [g0] it started from. *)
Record invariant (g0 graph : graph_t) (roots order : list string) : Prop := {
  inv_keys : NoDup (PyDict.keys graph);
  inv_sub : ∀ kv, kv ∈ graph → kv ∈ g0;
  inv_roots : ∀ k, k ∈ PyDict.keys graph → ¬ referenced graph k → k ∈ roots;
  inv_unref : ∀ x, x ∈ roots ++ order → ¬ referenced graph x;
  inv_nodup : NoDup (roots ++ order);
  inv_done : ∀ k, k ∈ PyDict.keys g0 → k ∈ PyDict.keys graph ∨ k ∈ order;
  inv_before : ∀ n refs r,
    PyDict.get n g0 = Some refs → r ∈ refs → n ∈ order →
    r ∈ roots ∨ referenced graph r ∨ before r n order
}.

(** A set of names that keeps itself in the graph: each of its names is
    listed by the entry of one of them. *)
Definition self_supporting (g0 : graph_t) (S : string → Prop) : Prop :=
  ∀ x, S x → ∃ k ps, S k ∧ PyDict.get k g0 = Some ps ∧ x ∈ ps.

End Topo.

(** ** [dependency_sort] *)

Module Tarjan.

Abbreviation graph_t := (list (Assignment * list Assignment)).

(** The variables [strongconnect] closes over.  The stack is kept with
    its top first: [stack.append] is a cons, [stack.pop()] takes the
    head. *)
Record state : Type := mkState {
  index_counter : nat;
  stack : list Assignment;
  lowlinks : gmap Assignment nat;
  index : gmap Assignment nat;
  result_ : list (list Assignment)
}.

(** [assignments_by_name = {a.reference_name(): a for a in assignments}] *)
Definition assignments_by_name (assignments : list Assignment)
    : list (string * Assignment) :=
  PyDict.of_pairs (map (fun a => (reference_name a, a)) assignments).

(** [[assignments_by_name[r] for r in references if r in assignments_by_name]] *)
Definition resolve {seed : Hashing} (by_name : list (string * Assignment))
    (refs : gset string) : list Assignment :=
  omap (fun r => PyDict.get r by_name) (iter refs).

(** [graph = {}] and [graph[assignment] = [...]] for every assignment *)
Definition build_graph {seed : Hashing} (assignments : list Assignment)
    : graph_t :=
  let by_name := assignments_by_name assignments in
  PyDict.of_pairs
    ((fun assignment =>
        (assignment, resolve by_name (references assignment))) <$> assignments).

(** [graph.get(node, [])] *)
Definition successors (graph : graph_t) (node : Assignment) : list Assignment :=
  default [] (PyDict.get node graph).

(** [d[k]] on a dict that may lack the key. *)
Definition getitem (d : gmap Assignment nat) (k : Assignment) : result nat :=
  match d !! k with
  | Some v => Return v
  | None => Raise KeyError
  end.

(** The [while True:] loop that pops the component of [node]. *)
Fixpoint pop_component (node : Assignment) (stack : list Assignment)
    (connected_component : list Assignment)
    : result (list Assignment * list Assignment) :=
  match stack with
  | [] => Raise IndexError
  | successor :: stack =>
      let connected_component := connected_component ++ [successor] in
      if decide (successor = node)
      then Return (connected_component, stack)
      else pop_component node stack connected_component
  end.

Definition set_lowlink (node : Assignment) (v : nat) (s : state) : state :=
  mkState (index_counter s) (stack s) (<[node := v]> (lowlinks s))
          (index s) (result_ s).

(** The first four statements of [strongconnect]. *)
Definition enter (node : Assignment) (s : state) : state :=
  mkState (S (index_counter s)) (node :: stack s)
          (<[node := index_counter s]> (lowlinks s))
          (<[node := index_counter s]> (index s))
          (result_ s).

(** The statements after the loop over the successors. *)
Definition close (node : Assignment) (s : state) : result state :=
  low ← getitem (lowlinks s) node;
  idx ← getitem (index s) node;
  if decide (low = idx) then
    '(component, stack) ← pop_component node (stack s) [];
    Return (mkState (index_counter s) stack (lowlinks s) (index s)
                    (result_ s ++ [component]))
  else Return s.

(** The body of [for successor in successors], given the recursive call. *)
Definition visit (rec : Assignment → state → result state)
    (node successor : Assignment) (s : state) : result state :=
  match lowlinks s !! successor with
  | None =>
      s ← rec successor s;
      low ← getitem (lowlinks s) node;
      low' ← getitem (lowlinks s) successor;
      Return (set_lowlink node (min low low') s)
  | Some _ =>
      if decide (successor ∈ stack s) then
        low ← getitem (lowlinks s) node;
        idx ← getitem (index s) successor;
        Return (set_lowlink node (min low idx) s)
      else Return s
  end.

Fixpoint strongconnect (fuel : nat) (graph : graph_t) (node : Assignment)
    (s : state) : result state :=
  match fuel with
  | 0 => Cutoff
  | S fuel =>
      let s := enter node s in
      s ← for_each (visit (strongconnect fuel graph) node)
                   (successors graph node) s;
      close node s
  end.

Definition initial : state := mkState 0 [] ∅ ∅ [].

(** [for node in graph: if node not in lowlinks: strongconnect(node)] *)
Definition visit_root (fuel : nat) (graph : graph_t) (node : Assignment)
    (s : state) : result state :=
  match lowlinks s !! node with
  | None => strongconnect fuel graph node s
  | Some _ => Return s
  end.

(** The recursion is never deeper than the number of nodes. *)
Definition dependency_sort {seed : Hashing} (assignments : list Assignment)
    : result (list (list Assignment)) :=
  let graph := build_graph assignments in
  s ← for_each (visit_root (length graph) graph) (PyDict.keys graph) initial;
  Return (result_ s).

(** The vocabulary of the claims about the sort: [a] depends on [b] when
    a name in the references of [a] is resolved to [b]. *)
Definition depends (assignments : list Assignment) (a b : Assignment) : Prop :=
  a ∈ assignments ∧
  ∃ r, r ∈ references a ∧
       PyDict.get r (assignments_by_name assignments) = Some b.

(** ** What Tarjan's algorithm maintains *)

Section invariants.
Variable graph : graph_t.

Definition edge (x y : Assignment) : Prop := y ∈ successors graph x.
Definition reach : relation Assignment := rtc edge.

Definition visited (s : state) (x : Assignment) : Prop :=
  is_Some (lowlinks s !! x).
#[global] Instance visited_dec s x : Decision (visited s x) :=
  is_Some_dec (lowlinks s !! x).
Definition rank (s : state) (x : Assignment) : nat :=
  default 0 (index s !! x).
Definition lowv (s : state) (x : Assignment) : nat :=
  default 0 (lowlinks s !! x).

(** The nodes that are still to visit bound the depth of the recursion. *)
Definition unvisited (s : state) : list Assignment :=
  filter (λ k, lowlinks s !! k = None) (PyDict.keys graph).

(** The invariant of the state between any two steps. *)
Record wf (s : state) : Prop := {
  wf_dom : ∀ x, visited s x ↔ is_Some (index s !! x);
  wf_keys : ∀ x, visited s x → x ∈ PyDict.keys graph;
  wf_lt : ∀ x, visited s x → rank s x < index_counter s;
  wf_inj : ∀ x y, visited s x → visited s y → rank s x = rank s y → x = y;
  wf_sorted : StronglySorted (λ x y, rank s y < rank s x) (stack s);
  wf_part : ∀ x, visited s x ↔ x ∈ stack s ∨ x ∈ mjoin (result_ s);
  wf_nodup : NoDup (stack s ++ mjoin (result_ s));
  wf_low : ∀ x, x ∈ stack s →
    ∃ y, y ∈ stack s ∧ rank s y = lowv s x ∧ lowv s x ≤ rank s x ∧ reach x y;
  wf_order : ∀ i comp x y,
    result_ s !! i = Some comp → x ∈ comp → edge x y →
    ∃ j comp', j ≤ i ∧ result_ s !! j = Some comp' ∧ y ∈ comp';
  wf_scc : ∀ comp x y, comp ∈ result_ s → x ∈ comp → y ∈ comp → reach x y;
  wf_nonempty : ∀ comp, comp ∈ result_ s → comp ≠ []
}.

(** What a call leaves as it was. *)
Record frame (s0 s : state) : Prop := {
  fr_counter : index_counter s0 ≤ index_counter s;
  fr_visited : ∀ x, visited s0 x → visited s x;
  fr_rank : ∀ x, visited s0 x → rank s x = rank s0 x;
  fr_low : ∀ x, visited s0 x → lowv s x = lowv s0 x;
  fr_result : ∃ new, result_ s = result_ s0 ++ new;
  fr_new : ∀ x, ¬ visited s0 x → visited s x → index_counter s0 ≤ rank s x
}.

(** The nodes of [seg], which a call on [v] left on the stack, as seen
    from [v]: no edge from them leads below the low link of [v]. *)
Record segment (s : state) (v : Assignment) (seg done : list Assignment)
    : Prop := {
  sg_edges : ∀ x y, x ∈ seg → edge x y → (x = v → y ∈ done) →
                    y ∈ stack s → lowv s v ≤ rank s y;
  sg_lows : ∀ x, x ∈ seg → lowv s v ≤ lowv s x;
  sg_strict : ∀ x, x ∈ seg → x ≠ v → lowv s x < rank s x
}.

(** The state inside [strongconnect(v)], called in state [s0], when the
    successors in [done] have been considered. *)
Record inloop (s0 : state) (v : Assignment) (done : list Assignment)
    (s : state) : Prop := {
  il_wf : wf s;
  il_frame : frame s0 s;
  il_new : ¬ visited s0 v;
  il_rank : rank s v = index_counter s0;
  il_stack : ∃ seg, stack s = seg ++ v :: stack s0 ∧
                    (∀ x, x ∈ seg → ¬ visited s0 x) ∧
                    segment s v (seg ++ [v]) done;
  il_reach : ∀ x, ¬ visited s0 x → visited s x → reach v x;
  il_complete : ∀ x y, ¬ visited s0 x → visited s x → x ≠ v → edge x y →
                       visited s y;
  il_done : ∀ y, y ∈ done → visited s y
}.

(** The state after [strongconnect(v)], called in state [s0]. *)
Record post (s0 : state) (v : Assignment) (s : state) : Prop := {
  po_wf : wf s;
  po_frame : frame s0 s;
  po_rank : rank s v = index_counter s0;
  po_visited : visited s v;
  po_reach : ∀ x, ¬ visited s0 x → visited s x → reach v x;
  po_complete : ∀ x y, ¬ visited s0 x → visited s x → edge x y → visited s y;
  po_stack : ∃ seg, stack s = seg ++ stack s0 ∧
                    (∀ x, x ∈ seg → ¬ visited s0 x) ∧
                    (seg = [] ∧ lowv s v = rank s v ∨
                     last seg = Some v ∧ lowv s v < rank s v ∧
                     segment s v seg (successors graph v))
}.

End invariants.

End Tarjan.

(** ** Annotated parse tokens

    [parser.AnnotatedToken] is a plain object with the attributes [ty] and
    [elements]; an element of [elements] is another token, a raw string of
    the tokenizer, or a nested list of elements. *)

Inductive Elem : Type :=
  | Tok (ty : string) (elements : list Elem)
  | Str (s : string)
  | Group (items : list Elem).

(** ** Sema nodes

    One constructor per concrete class, with the attributes in the order
    [__init__] assigns them.  An attribute that receives an element of the
    parse tree as it is has type [Elem]; one set through
    [_maybe_create_sema_node] is a [pyval]; [None] is [option]'s. *)

Inductive SemaNode : Type :=
  | Module (_user_types : list (string * SemaNode)) (name : Elem)
      (assignments : list SemaNode)
  | TypeAssignment (type_name : Elem) (type_decl : SemaNode)
  | ValueAssignment (value_name : Elem) (type_decl : SemaNode) (value : pyval)
  | ChoiceType (type_name : Elem) (components : list SemaNode)
  | SequenceType (type_name : Elem) (components : list SemaNode)
  | SetType (type_name : Elem) (components : list SemaNode)
  | SequenceOfType (size_constraint : option SemaNode) (type_decl : SemaNode)
  | SetOfType (size_constraint : option SemaNode) (type_decl : SemaNode)
  | TaggedType (class_name class_number : option Elem) (implicit : bool)
      (type_decl : SemaNode)
  | SimpleType (constraint : option SemaNode) (type_name : Elem)
  | ReferencedType (module_reference : option Elem) (type_name : Elem)
  | ReferencedValue (name : Elem)
  | Constraint (min_value max_value : pyval)
  | SizeConstraint (min_value max_value : pyval)
  | ComponentType (identifier : option Elem) (type_decl : option SemaNode)
      (default_value : option pyval) (optional : bool)
      (components_of_type : option SemaNode)
  | NamedType (identifier : Elem) (type_decl : SemaNode)
  | ValueListType (type_name : Elem) (named_values : option (list SemaNode))
  | BitStringType (type_name : Elem) (named_bits : option (list SemaNode))
  | NamedValue (identifier : Elem) (value : option Elem)
  | ExtensionMarker
  | NameForm (name : Elem)
  | NumberForm (value : Elem)
  | NameAndNumberForm (name number : SemaNode)
  | ObjectIdentifierValue (components : list SemaNode)
  | BinaryStringValue (value : Elem)
  | HexStringValue (value : Elem)
with pyval : Type :=
  | Raw (e : Elem)
  | Node (n : SemaNode).

(** ** Python primitives on parse elements *)

Module Py.

Definition is_token (e : Elem) : bool :=
  match e with Tok _ _ => true | _ => false end.

(** [e.ty] and [e.elements] *)
Definition ty (e : Elem) : result string :=
  match e with Tok ty _ => Return ty | _ => Raise AttributeError end.
Definition elements (e : Elem) : result (list Elem) :=
  match e with Tok _ els => Return els | _ => Raise AttributeError end.

(** [l[i]] *)
Definition item (l : list Elem) (i : nat) : result Elem :=
  match l !! i with Some e => Return e | None => Raise IndexError end.

(** [for x in e]: a list yields its items, a string its characters. *)
Definition iter (e : Elem) : result (list Elem) :=
  match e with
  | Group items => Return items
  | Str s => Return ((fun c => Str (String c EmptyString)) <$> String.list_ascii_of_string s)
  | Tok _ _ => Raise TypeError
  end.

(** [e == s] for a string literal [s], on an element that is no token. *)
Definition eq_str (e : Elem) (s : string) : bool :=
  match e with Str s' => bool_decide (s' = s) | _ => false end.

(** Truth value of an element: objects are true, strings and lists when
    they are not empty. *)
Definition truthy (e : Elem) : bool :=
  match e with
  | Tok _ _ => true
  | Str s => bool_decide (s ≠ "")
  | Group items => bool_decide (items ≠ [])
  end.

(** ASCII white space, which [int] skips at both ends of a string. *)
Definition is_space (c : ascii) : bool :=
  let n := nat_of_ascii c in
  bool_decide (9 ≤ n ≤ 13 ∨ n = 32).
Definition is_digit (c : ascii) : bool :=
  let n := nat_of_ascii c in bool_decide (48 ≤ n ≤ 57).

(** Characters that interpreters of different versions read differently
    in a number: the digit separator, the separator controls and
    everything outside ASCII. *)
Definition is_unsettled (c : ascii) : bool :=
  let n := nat_of_ascii c in
  bool_decide (c = "_"%char ∨ 28 ≤ n ≤ 31 ∨ 128 ≤ n).

Fixpoint lstrip (l : list ascii) : list ascii :=
  match l with
  | c :: l' => if is_space c then lstrip l' else l
  | [] => []
  end.
Definition strip (l : list ascii) : list ascii :=
  reverse (lstrip (reverse (lstrip l))).

Definition digits_value (l : list ascii) : Z :=
  foldl (fun acc c => (10 * acc + Z.of_nat (nat_of_ascii c - 48))%Z) 0%Z l.

(** [int(s)] for a string: surrounding white space, an optional sign and
    decimal digits; anything else is a [ValueError].  A string with a
    character of [is_unsettled] is cut off. *)
Definition int_of_string (s : string) : result Z :=
  let l := String.list_ascii_of_string s in
  if existsb is_unsettled l then Cutoff
  else
    let l := strip l in
    let '(neg, ds) :=
      match l with
      | "-"%char :: ds => (true, ds)
      | "+"%char :: ds => (false, ds)
      | _ => (false, l)
      end in
    match ds with
    | [] => Raise ValueError
    | _ =>
        if forallb is_digit ds
        then Return (if neg : bool then (- digits_value ds)%Z else digits_value ds)
        else Raise ValueError
    end.

(** [int(e)] *)
Definition int (e : Elem) : result Z :=
  match e with
  | Str s => int_of_string s
  | _ => Raise TypeError
  end.

(** [str(n)] for an integer *)
Definition str_of_int (n : Z) : string := pretty n.

(** [str(e)]: a string is itself; the text of a token or of a list is
    produced by code outside [sema.py]. *)
Definition str (e : Elem) : result string :=
  match e with Str s => Return s | _ => Cutoff end.

(** [sep.join(l)] on values that must be strings. *)
Definition join_elems (sep : string) (l : list (option Elem)) : result string :=
  ss ← for_each (fun x acc =>
                   match x with
                   | Some (Str s) => Return (acc ++ [s])
                   | _ => Raise TypeError
                   end) l [];
  Return (String.concat sep ss).

(** The string a [__str__] method returns must be a [str]. *)
Definition as_str (e : Elem) : result string :=
  match e with Str s => Return s | _ => Raise TypeError end.

End Py.

(** ** Construction of sema nodes

    [_unnamed_counter] is the one piece of global state: a computation
    takes its value and gives back its new value with the result. *)

Definition St (S A : Type) : Type := S → result A * S.

#[global] Instance St_ret {S} : MRet (St S) := fun A a s => (Return a, s).
#[global] Instance St_bind {S} : MBind (St S) := fun A B f m s =>
  match m s with
  | (Return a, s') => f a s'
  | (Raise e, s') => (Raise e, s')
  | (Cutoff, s') => (Cutoff, s')
  end.

Definition lift {S A} (r : result A) : St S A := fun s => (r, s).
Definition raise {S A} (e : exn) : St S A := lift (Raise e).

Abbreviation M := (St nat).

(** [[f(x) for x in l]] *)
Fixpoint map_M {A B} (f : A → M B) (l : list A) : M (list B) :=
  match l with
  | [] => mret []
  | x :: l' => y ← f x; ys ← map_M f l'; mret (y :: ys)
  end.

(** [_get_next_unnamed] *)
Definition _get_next_unnamed : M string :=
  fun _unnamed_counter =>
    let _unnamed_counter := _unnamed_counter + 1 in
    (Return ("unnamed" +:+ pretty _unnamed_counter), _unnamed_counter).

(** The attribute [n.value], for [named_values[idx-1].value]. *)
Definition attr_value (n : SemaNode) : result (option pyval) :=
  match n with
  | ValueAssignment _ _ v => Return (Some v)
  | NamedValue _ v => Return (Raw <$> v)
  | NumberForm v | BinaryStringValue v | HexStringValue v => Return (Some (Raw v))
  | _ => Raise AttributeError
  end.

(** [int(v)] on the value of an attribute. *)
Definition int_of_attr (v : option pyval) : result Z :=
  match v with
  | Some (Raw e) => Py.int e
  | _ => Raise TypeError
  end.

(** The loop of [ValueListType.__init__] that numbers the named values
    which have no value, from the entry at [idx] on.  [n.value = ...]
    updates the node in the list, where the next iteration reads it. *)
Fixpoint number_named_values (idx : nat) (todo : list SemaNode)
    (named_values : list SemaNode) : result (list SemaNode) :=
  match todo with
  | [] => Return named_values
  | n :: todo =>
      named_values ←
        match n with
        | NamedValue identifier None =>
            match idx with
            | 0 =>
                Return (<[idx := NamedValue identifier (Some (Str (Py.str_of_int 0)))]>
                          named_values)
            | S prev =>
                p ← match named_values !! prev with
                    | Some p => Return p
                    | None => Raise IndexError
                    end;
                v ← attr_value p;
                k ← int_of_attr v;
                Return (<[idx := NamedValue identifier
                                   (Some (Str (Py.str_of_int (k + 1))))]>
                          named_values)
            end
        | _ => Return named_values
        end;
      number_named_values (S idx) todo named_values
  end.

Section constructors.

(** The recursive call to [_create_sema_node]. *)
Variable _create_sema_node : Elem → M SemaNode.

Definition _maybe_create_sema_node (token : Elem) : M pyval :=
  if Py.is_token token
  then n ← _create_sema_node token; mret (Node n)
  else mret (Raw token).

Definition Module__init__ (elements : list Elem) : M SemaNode :=
  match elements with
  | [module_reference; _; _; _; _; module_body; _] =>
      body ← lift (Py.elements module_body);
      match body with
      | [exports; imports; assignments] =>
          mr ← lift (Py.elements module_reference);
          name ← lift (Py.item mr 0);
          tokens ← lift (Py.elements assignments);
          assignments ← map_M _create_sema_node tokens;
          mret (Module [] name assignments)
      | _ => raise ValueError
      end
  | _ => raise ValueError
  end.

Definition TypeAssignment__init__ (elements : list Elem) : M SemaNode :=
  if decide (length elements = 3) then
    match elements with
    | [type_name; _; type_decl] =>
        type_decl ← _create_sema_node type_decl;
        mret (TypeAssignment type_name type_decl)
    | _ => raise ValueError
    end
  else raise AssertionError.

Definition ValueAssignment__init__ (elements : list Elem) : M SemaNode :=
  match elements with
  | [value_name; type_name; _; value] =>
      type_decl ← _create_sema_node type_name;
      value ← _maybe_create_sema_node value;
      mret (ValueAssignment value_name type_decl value)
  | _ => raise ValueError
  end.

(** [ConstructedType.__init__], shared by SEQUENCE, SET and CHOICE. *)
Definition ConstructedType__init__
    (cls : Elem → list SemaNode → SemaNode) (elements : list Elem)
    : M SemaNode :=
  match elements with
  | [type_name; component_tokens] =>
      tokens ← lift (Py.iter component_tokens);
      components ← map_M _create_sema_node tokens;
      mret (cls type_name components)
  | _ => raise ValueError
  end.

(** [CollectionType.__init__], shared by SEQUENCE OF and SET OF. *)
Definition CollectionType__init__
    (cls : option SemaNode → SemaNode → SemaNode) (elements : list Elem)
    : M SemaNode :=
  e0 ← lift (Py.item elements 0);
  ty0 ← lift (Py.ty e0);
  if decide (ty0 = "Type") then
    type_decl ← _create_sema_node e0;
    mret (cls None type_decl)
  else if decide (ty0 = "SizeConstraint") then
    size_constraint ← _create_sema_node e0;
    e1 ← lift (Py.item elements 1);
    type_decl ← _create_sema_node e1;
    mret (cls (Some size_constraint) type_decl)
  else raise AssertionError.

(** The loop over [tag_token.elements] in [TaggedType.__init__]. *)
Fixpoint tag_elements (tag_elements_ : list Elem)
    (class_name class_number : option Elem)
    : result (option Elem * option Elem) :=
  match tag_elements_ with
  | [] => Return (class_name, class_number)
  | tag_element :: rest =>
      ty ← Py.ty tag_element;
      if decide (ty = "TagClassNumber") then
        els ← Py.elements tag_element;
        e ← Py.item els 0;
        tag_elements rest class_name (Some e)
      else if decide (ty = "TagClass") then
        els ← Py.elements tag_element;
        e ← Py.item els 0;
        tag_elements rest (Some e) class_number
      else Raise AssertionError
  end.

Definition TaggedType__init__ (elements : list Elem) : M SemaNode :=
  tag_token ← lift (Py.item elements 0);
  e1 ← lift (Py.item elements 1);
  '(implicit, type_token) ←
    (if Py.is_token e1 then mret (false, e1)
     else
       let implicit := Py.eq_str e1 "IMPLICIT" in
       type_token ← lift (Py.item elements 2);
       mret (implicit, type_token));
  tag_els ← lift (Py.elements tag_token);
  '(class_name, class_number) ← lift (tag_elements tag_els None None);
  type_decl ← _create_sema_node type_token;
  mret (TaggedType class_name class_number implicit type_decl).

Definition Constraint__init__ (cls : pyval → pyval → SemaNode)
    (elements : list Elem) : M SemaNode :=
  match elements with
  | [min_value; max_value] =>
      min_value ← _maybe_create_sema_node min_value;
      max_value ← _maybe_create_sema_node max_value;
      mret (cls min_value max_value)
  | _ => raise ValueError
  end.

Definition SimpleType__init__ (elements : list Elem) : M SemaNode :=
  type_name ← lift (Py.item elements 0);
  if decide (1 < length elements) then
    e1 ← lift (Py.item elements 1);
    ty1 ← lift (Py.ty e1);
    if decide (ty1 = "Constraint") then
      els ← lift (Py.elements e1);
      constraint ← Constraint__init__ Constraint els;
      mret (SimpleType (Some constraint) type_name)
    else mret (SimpleType None type_name)
  else mret (SimpleType None type_name).

Definition ReferencedType__init__ (elements : list Elem) : M SemaNode :=
  if decide (1 < length elements) then
    e0 ← lift (Py.item elements 0);
    ty0 ← lift (Py.ty e0);
    if decide (ty0 = "ModuleReference") then
      els ← lift (Py.elements e0);
      module_reference ← lift (Py.item els 0);
      type_name ← lift (Py.item elements 1);
      mret (ReferencedType (Some module_reference) type_name)
    else
      type_name ← lift (Py.item elements 0);
      mret (ReferencedType None type_name)
  else
    type_name ← lift (Py.item elements 0);
    mret (ReferencedType None type_name).

Definition ReferencedValue__init__ (elements : list Elem) : M SemaNode :=
  name ← lift (Py.item elements 0);
  mret (ReferencedValue name).

Definition NamedType__init__ (elements : list Elem) : M SemaNode :=
  first_token ← lift (Py.item elements 0);
  ty0 ← lift (Py.ty first_token);
  if decide (ty0 = "Type") then
    identifier ← _get_next_unnamed;
    type_decl ← _create_sema_node first_token;
    mret (NamedType (Str identifier) type_decl)
  else if decide (ty0 = "Identifier") then
    els ← lift (Py.elements first_token);
    identifier ← lift (Py.item els 0);
    type_token ← lift (Py.item elements 1);
    type_decl ← _create_sema_node type_token;
    mret (NamedType identifier type_decl)
  else raise UnboundLocalError.

(** [crack_named_type] of [ComponentType.__init__]: the identifier and
    the type declaration of [NamedType(token)]. *)
Definition crack_named_type (token : list Elem) : M (Elem * SemaNode) :=
  named_type ← NamedType__init__ token;
  match named_type with
  | NamedType identifier type_decl => mret (identifier, type_decl)
  | _ => raise AttributeError
  end.

Definition ComponentType__init__ (elements : list Elem) : M SemaNode :=
  first_token ← lift (Py.item elements 0);
  ty0 ← lift (Py.ty first_token);
  if decide (ty0 = "NamedType") then
    els ← lift (Py.elements first_token);
    '(identifier, type_decl) ← crack_named_type els;
    mret (ComponentType (Some identifier) (Some type_decl) None false None)
  else if decide (ty0 = "ComponentTypeOptional") then
    els ← lift (Py.elements first_token);
    e0 ← lift (Py.item els 0);
    els0 ← lift (Py.elements e0);
    '(identifier, type_decl) ← crack_named_type els0;
    mret (ComponentType (Some identifier) (Some type_decl) None true None)
  else if decide (ty0 = "ComponentTypeDefault") then
    els ← lift (Py.elements first_token);
    e0 ← lift (Py.item els 0);
    els0 ← lift (Py.elements e0);
    '(identifier, type_decl) ← crack_named_type els0;
    e1 ← lift (Py.item els 1);
    default_value ← _maybe_create_sema_node e1;
    mret (ComponentType (Some identifier) (Some type_decl)
                        (Some default_value) false None)
  else if decide (ty0 = "ComponentTypeComponentsOf") then
    els ← lift (Py.elements first_token);
    e0 ← lift (Py.item els 0);
    components_of_type ← _create_sema_node e0;
    mret (ComponentType None None None false (Some components_of_type))
  else raise AssertionError.

Definition ValueListType__init__ (elements : list Elem) : M SemaNode :=
  type_name ← lift (Py.item elements 0);
  if decide (1 < length elements) then
    e1 ← lift (Py.item elements 1);
    tokens ← lift (Py.iter e1);
    named_values ← map_M _create_sema_node tokens;
    named_values ← lift (number_named_values 0 named_values named_values);
    mret (ValueListType type_name (Some named_values))
  else mret (ValueListType type_name None).

Definition BitStringType__init__ (elements : list Elem) : M SemaNode :=
  type_name ← lift (Py.item elements 0);
  if decide (1 < length elements) then
    e1 ← lift (Py.item elements 1);
    tokens ← lift (Py.iter e1);
    named_bits ← map_M _create_sema_node tokens;
    mret (BitStringType type_name (Some named_bits))
  else mret (BitStringType type_name None).

Definition NamedValue__init__ (elements : list Elem) : M SemaNode :=
  if decide (length elements = 1) then
    identifier_token ← lift (Py.item elements 0);
    mret (NamedValue identifier_token None)
  else
    match elements with
    | [identifier_token; value_token] =>
        els ← lift (Py.elements identifier_token);
        identifier ← lift (Py.item els 0);
        els' ← lift (Py.elements value_token);
        value ← lift (Py.item els' 0);
        mret (NamedValue identifier (Some value))
    | _ => raise ValueError
    end.

(** The classes whose [__init__] stores [elements[0]]. *)
Definition Leaf__init__ (cls : Elem → SemaNode) (elements : list Elem)
    : M SemaNode :=
  e ← lift (Py.item elements 0);
  mret (cls e).

Definition NameAndNumberForm__init__ (elements : list Elem) : M SemaNode :=
  e0 ← lift (Py.item elements 0);
  name ← _create_sema_node e0;
  e1 ← lift (Py.item elements 1);
  number ← _create_sema_node e1;
  mret (NameAndNumberForm name number).

Definition ObjectIdentifierValue__init__ (elements : list Elem) : M SemaNode :=
  components ← map_M _create_sema_node elements;
  mret (ObjectIdentifierValue components).

(** The chain of tests on [token.ty] in [_create_sema_node]. *)
Definition dispatch (ty : string) (elements : list Elem) : M SemaNode :=
  if decide (ty = "ModuleDefinition") then Module__init__ elements
  else if decide (ty = "TypeAssignment") then TypeAssignment__init__ elements
  else if decide (ty = "ValueAssignment") then ValueAssignment__init__ elements
  else if decide (ty = "ComponentType") then ComponentType__init__ elements
  else if decide (ty = "NamedType") then NamedType__init__ elements
  else if decide (ty = "ValueListType") then ValueListType__init__ elements
  else if decide (ty = "BitStringType") then BitStringType__init__ elements
  else if decide (ty = "NamedValue") then NamedValue__init__ elements
  else if decide (ty = "Type") then
    e0 ← lift (Py.item elements 0); _create_sema_node e0
  else if decide (ty = "SimpleType") then SimpleType__init__ elements
  else if decide (ty = "ReferencedType") then ReferencedType__init__ elements
  else if decide (ty = "ReferencedValue") then ReferencedValue__init__ elements
  else if decide (ty = "TaggedType") then TaggedType__init__ elements
  else if decide (ty = "SequenceType") then ConstructedType__init__ SequenceType elements
  else if decide (ty = "ChoiceType") then ConstructedType__init__ ChoiceType elements
  else if decide (ty = "SetType") then ConstructedType__init__ SetType elements
  else if decide (ty = "SequenceOfType") then CollectionType__init__ SequenceOfType elements
  else if decide (ty = "SetOfType") then CollectionType__init__ SetOfType elements
  else if decide (ty = "ExtensionMarker") then mret ExtensionMarker
  else if decide (ty = "SizeConstraint") then Constraint__init__ SizeConstraint elements
  else if decide (ty = "ObjectIdentifierValue") then ObjectIdentifierValue__init__ elements
  else if decide (ty = "NameForm") then Leaf__init__ NameForm elements
  else if decide (ty = "NumberForm") then Leaf__init__ NumberForm elements
  else if decide (ty = "NameAndNumberForm") then NameAndNumberForm__init__ elements
  else if decide (ty = "BinaryStringValue") then Leaf__init__ BinaryStringValue elements
  else if decide (ty = "HexStringValue") then Leaf__init__ HexStringValue elements
  else raise (UnknownTokenType ty).

End constructors.

(** [_create_sema_node]; the fuel bounds the depth of the recursion. *)
Fixpoint _create_sema_node (fuel : nat) (token : Elem) : M SemaNode :=
  match fuel with
  | 0 => lift Cutoff
  | S fuel =>
      match token with
      | Tok ty elements => dispatch (_create_sema_node fuel) ty elements
      | _ => raise AssertionError  (* _assert_annotated_token *)
      end
  end.

(** The nesting depth of an element: the recursion goes no deeper. *)
Fixpoint depth (e : Elem) : nat :=
  match e with
  | Tok _ els => S (foldr (fun e d => max (depth e) d) 0 els)
  | Str _ => 1
  | Group items => S (foldr (fun e d => max (depth e) d) 0 items)
  end.

Definition create_sema_node (token : Elem) : M SemaNode :=
  _create_sema_node (depth token) token.

Definition build_semantic_model (parse_result : list Elem) : M (list SemaNode) :=
  map_M (fun token =>
           if Py.is_token token then create_sema_node token
           else raise AssertionError)
        parse_result.

(** ** Textual rendering: the [__str__] methods *)

Definition nl : string := String "010"%char EmptyString.

(** The results of [map(str, l)], up to the first that fails. *)
Definition all_results {A} (l : list (result A)) : result (list A) :=
  for_each (fun r acc => x ← r; Return (acc ++ [x])) l [].

(** ['%s' % x] for an attribute that holds an element or [None]. *)
Definition fmt_elem (x : option Elem) : result string :=
  match x with
  | None => Return "None"
  | Some e => Py.str e
  end.

Fixpoint str_node (n : SemaNode) : result string :=
  let fmt_node (x : option SemaNode) : result string :=
    match x with None => Return "None" | Some n => str_node n end in
  let fmt_list (sep : string) (l : list SemaNode) : result string :=
    ss ← all_results (map str_node l); Return (String.concat sep ss) in
  let listing (type_name : Elem) (l : option (list SemaNode)) : result string :=
    match l with
    | Some ((_ :: _) as l) =>
        named_list ← fmt_list ", " l;
        t ← Py.str type_name;
        Return (t +:+ " { " +:+ named_list +:+ " }")
    | _ => Py.str type_name
    end in
  let constructed (type_name : Elem) (components : list SemaNode) :=
    component_type_list ← fmt_list ", " components;
    t ← Py.str type_name;
    Return (t +:+ " { " +:+ component_type_list +:+ " }") in
  let collection (kind : string) (size_constraint : option SemaNode)
      (type_decl : SemaNode) :=
    match size_constraint with
    | Some c =>
        sc ← str_node c; td ← str_node type_decl;
        Return (kind +:+ " " +:+ sc +:+ " OF " +:+ td)
    | None =>
        td ← str_node type_decl; Return (kind +:+ " OF " +:+ td)
    end in
  match n with
  | Module _ name assignments =>
      nm ← Py.str name;
      body ← fmt_list nl assignments;
      Return (nm +:+ " DEFINITIONS ::=" +:+ nl +:+ "BEGIN" +:+ nl +:+ body
                 +:+ nl +:+ "END" +:+ nl)
  | TypeAssignment type_name type_decl =>
      t ← Py.str type_name; td ← str_node type_decl;
      Return (t +:+ " ::= " +:+ td)
  | ValueAssignment value_name type_decl value =>
      vn ← Py.str value_name; td ← str_node type_decl; v ← str_pyval value;
      Return (vn +:+ " " +:+ td +:+ " ::= " +:+ v)
  | ChoiceType type_name components
  | SequenceType type_name components
  | SetType type_name components => constructed type_name components
  | SequenceOfType size_constraint type_decl =>
      collection "SEQUENCE" size_constraint type_decl
  | SetOfType size_constraint type_decl =>
      collection "SET" size_constraint type_decl
  | TaggedType class_name class_number implicit type_decl =>
      let class_spec :=
        match class_name with
        | Some c => if Py.truthy c then [class_name] else []
        | None => []
        end in
      let class_spec := class_spec ++ [class_number] in
      spec ← Py.join_elems " " class_spec;
      let result := "[" +:+ spec +:+ "] " in
      let result := if implicit then result +:+ "IMPLICIT " else result in
      td ← str_node type_decl;
      Return (result +:+ td)
  | SimpleType constraint type_name =>
      match constraint with
      | None => Py.as_str type_name
      | Some c =>
          t ← Py.str type_name; cs ← str_node c; Return (t +:+ " " +:+ cs)
      end
  | ReferencedType _ type_name => Py.as_str type_name
  | ReferencedValue name => Py.as_str name
  | Constraint min_value max_value =>
      lo ← str_pyval min_value; hi ← str_pyval max_value;
      Return ("(" +:+ lo +:+ ".." +:+ hi +:+ ")")
  | SizeConstraint min_value max_value =>
      lo ← str_pyval min_value; hi ← str_pyval max_value;
      Return ("SIZE(" +:+ lo +:+ ".." +:+ hi +:+ ")")
  | ComponentType identifier type_decl default_value optional components_of_type =>
      match components_of_type with
      | Some c => s ← str_node c; Return ("COMPONENTS OF " +:+ s)
      | None =>
          i ← fmt_elem identifier; td ← fmt_node type_decl;
          let result := i +:+ " " +:+ td in
          if optional then Return (result +:+ " OPTIONAL")
          else match default_value with
               | Some v => d ← str_pyval v; Return (result +:+ " DEFAULT " +:+ d)
               | None => Return result
               end
      end
  | NamedType identifier type_decl =>
      i ← Py.str identifier; td ← str_node type_decl;
      Return (i +:+ " " +:+ td)
  | ValueListType type_name named_values => listing type_name named_values
  | BitStringType type_name named_bits => listing type_name named_bits
  | NamedValue identifier value =>
      i ← Py.str identifier; v ← fmt_elem value;
      Return (i +:+ " (" +:+ v +:+ ")")
  | ExtensionMarker => Return "..."
  | NameForm name => Py.as_str name
  | NumberForm value => Py.str value
  | NameAndNumberForm name number =>
      a ← str_node name; b ← str_node number;
      Return (a +:+ "(" +:+ b +:+ ")")
  | ObjectIdentifierValue components =>
      cs ← fmt_list " " components; Return ("{" +:+ cs +:+ "}")
  | BinaryStringValue value =>
      v ← Py.str value; Return ("'" +:+ v +:+ "'B")
  | HexStringValue value =>
      v ← Py.str value; Return ("'" +:+ v +:+ "'H")
  end
with str_pyval (v : pyval) : result string :=
  match v with
  | Raw e => Py.str e
  | Node n => str_node n
  end.

(** ** The module facade

    The methods of [Module] run on [self._user_types] as their state and
    read [self.assignments]. *)

Module ModuleFacade.

Abbreviation types_t := (list (string * SemaNode)).

(** A dictionary key: strings hash by value and lists are unhashable;
    a token would be hashed by its identity, which is not modelled. *)
Definition key (e : Elem) : result string :=
  match e with
  | Str s => Return s
  | Group _ => Raise TypeError
  | Tok _ _ => Cutoff
  end.

(** The loop [for user_defined in type_assignments]. *)
Fixpoint index_types (type_assignments : list SemaNode) : St types_t () :=
  match type_assignments with
  | [] => mret ()
  | TypeAssignment type_name type_decl :: rest =>
      k ← lift (key type_name);
      (fun _user_types => (Return (), PyDict.set k type_decl _user_types));;
      index_types rest
  | _ :: rest => index_types rest
  end.

Definition is_TypeAssignment (a : SemaNode) : bool :=
  match a with TypeAssignment _ _ => true | _ => false end.

Definition user_types (assignments : list SemaNode) : St types_t types_t :=
  fun _user_types =>
    match _user_types with
    | [] =>
        let type_assignments := filter is_TypeAssignment assignments in
        match index_types type_assignments _user_types with
        | (Return _, _user_types) => (Return _user_types, _user_types)
        | (Raise e, _user_types) => (Raise e, _user_types)
        | (Cutoff, _user_types) => (Cutoff, _user_types)
        end
    | _ => (Return _user_types, _user_types)
    end.

(** [user_types[name]] *)
Definition getitem (user_types : types_t) (name : Elem) : result SemaNode :=
  k ← key name;
  match PyDict.get k user_types with
  | Some d => Return d
  | None => Raise KeyError
  end.

(** [resolve_type_decl]; the fuel bounds the depth of the recursion. *)
Fixpoint resolve_type_decl (fuel : nat) (assignments : list SemaNode)
    (type_decl : SemaNode) : St types_t SemaNode :=
  match fuel with
  | 0 => lift Cutoff
  | S fuel =>
      user_types ← user_types assignments;
      match type_decl with
      | ReferencedType _ type_name =>
          d ← lift (getitem user_types type_name);
          resolve_type_decl fuel assignments d
      | _ => mret type_decl
      end
  end.


(** What the claims about [resolve_type_decl] speak of: a declaration
    [d] that is a reference to a name bound to [d'] in the index. *)
Definition refers (user_types : types_t) (d d' : SemaNode) : Prop :=
  ∃ module_reference name,
    d = ReferencedType module_reference (Str name) ∧
    PyDict.get name user_types = Some d'.

Definition is_ReferencedType (d : SemaNode) : bool :=
  match d with ReferencedType _ _ => true | _ => false end.

(** The name a reference declaration refers to is defined in the index. *)
Definition defined (user_types : types_t) (d : SemaNode) : Prop :=
  match d with
  | ReferencedType _ type_name =>
      ∃ name, type_name = Str name ∧ is_Some (PyDict.get name user_types)
  | _ => True
  end.

End ModuleFacade.

(** What the fix-up pass of [ValueListType.__init__] leaves at position
    [idx] of the final list [out], where the created node was [n]: a named
    value without a value gets 0 in the first position and the value of
    the entry before it plus one elsewhere; any other node stays. *)
Definition numbered (out : list SemaNode) (idx : nat) (n : SemaNode) : Prop :=
  match n with
  | NamedValue identifier None =>
      ∃ v, out !! idx = Some (NamedValue identifier (Some (Str v))) ∧
        match idx with
        | 0 => v = "0"
        | S prev =>
            ∃ p k, out !! prev = Some p ∧
                   (attr_value p ≫= int_of_attr) = Return k ∧
                   v = Py.str_of_int (k + 1)
        end
  | _ => out !! idx = Some n
  end.

(** ** Concrete inputs used by the examples

    The parser is not part of [sema.py]; the tokens below are the
    annotated parse trees the constructors consume for the given text. *)

Module Ex.

(** [A] depends on [B] and on a name [X] that no assignment defines;
    [C] depends on [A] and [B]. *)
Definition aA : Assignment := mkAssignment 1 "A" {["B"; "X"]}.
Definition aB : Assignment := mkAssignment 2 "B" ∅.
Definition aC : Assignment := mkAssignment 3 "C" {["A"; "B"]}.

(** An assignment whose only reference is to an undefined name. *)
Definition lonely : Assignment := mkAssignment 1 "A" {["X"]}.

(** Two assignments that refer to each other. *)
Definition aD : Assignment := mkAssignment 4 "D" {["E"]}.
Definition aE : Assignment := mkAssignment 5 "E" {["D"]}.

(** A self-referential assignment, and a later one of the same name. *)
Definition selfA : Assignment := mkAssignment 6 "A" {["A"]}.
Definition plainA : Assignment := mkAssignment 7 "A" ∅.

(** [INTEGER] *)
Definition tINTEGER : Elem := Tok "Type" [Tok "SimpleType" [Str "INTEGER"]].

(** [[2] IMPLICIT INTEGER], [[2] EXPLICIT INTEGER] and [[2] INTEGER] *)
Definition tag2 : Elem := Tok "Tag" [Tok "TagClassNumber" [Str "2"]].
Definition tagged_implicit : Elem :=
  Tok "TaggedType" [tag2; Str "IMPLICIT"; tINTEGER].
Definition tagged_explicit : Elem :=
  Tok "TaggedType" [tag2; Str "EXPLICIT"; tINTEGER].
Definition tagged_plain : Elem := Tok "TaggedType" [tag2; tINTEGER].

(** [SEQUENCE SIZE(1..10) OF INTEGER] *)
Definition sequence_of_sized : Elem :=
  Tok "SequenceOfType" [Tok "SizeConstraint" [Str "1"; Str "10"]; tINTEGER].

(** Named values [A] and [B(5)] *)
Definition named (identifier : string) : Elem :=
  Tok "NamedValue" [Str identifier].
Definition numbered (identifier value : string) : Elem :=
  Tok "NamedValue" [Tok "Identifier" [Str identifier]; Tok "Value" [Str value]].

(** [ENUMERATED { A, B(5), C, D }] and [ENUMERATED { A, B, C }] *)
Definition enum_ABCD : Elem :=
  Tok "ValueListType"
      [Str "ENUMERATED"; Group [named "A"; numbered "B" "5"; named "C"; named "D"]].
Definition enum_ABC : Elem :=
  Tok "ValueListType" [Str "ENUMERATED"; Group [named "A"; named "B"; named "C"]].

(** The values of the named values of a value list type. *)
Definition values_of (n : SemaNode) : list (option Elem) :=
  match n with
  | ValueListType _ (Some named_values) =>
      (fun n => match n with NamedValue _ v => v | _ => None end) <$> named_values
  | _ => []
  end.

(** [T1 ::= INTEGER   T2 ::= T1   T3 ::= T2] *)
Definition tref (name : string) : Elem :=
  Tok "Type" [Tok "ReferencedType" [Str name]].
Definition assignment (name : string) (type_decl : Elem) : Elem :=
  Tok "TypeAssignment" [Str name; Str "::="; type_decl].
Definition chain_tokens : list Elem :=
  [assignment "T1" tINTEGER; assignment "T2" (tref "T1");
   assignment "T3" (tref "T2")].
Definition chain_assignments : list SemaNode :=
  [TypeAssignment (Str "T1") (SimpleType None (Str "INTEGER"));
   TypeAssignment (Str "T2") (ReferencedType None (Str "T1"));
   TypeAssignment (Str "T3") (ReferencedType None (Str "T2"))].

(** The index [user_types()] builds for them, and the distance of a
    declaration from the end of the chain. *)
Definition chain_index : list (string * SemaNode) :=
  [("T1", SimpleType None (Str "INTEGER"));
   ("T2", ReferencedType None (Str "T1"));
   ("T3", ReferencedType None (Str "T2"))].
Definition chain_rank (d : SemaNode) : nat :=
  match d with
  | ReferencedType _ (Str name) =>
      if decide (name = "T1") then 1
      else if decide (name = "T2") then 2
      else if decide (name = "T3") then 3 else 0
  | _ => 0
  end.

End Ex.

(** * Facts about insertion-ordered dictionaries *)

Section dict_facts.
Context {K V : Type} `{EqDecision K}.
Implicit Types (k : K) (v : V) (d : list (K * V)).

Lemma get_set k' k v d :
  PyDict.get k' (PyDict.set k v d) =
  if decide (k' = k) then Some v else PyDict.get k' d.
Proof.
  induction d as [|[k0 v0] d IH]; simpl.
  - done.
  - destruct (decide (k = k0)) as [->|Hne]; simpl.
    + by destruct (decide (k' = k0)).
    + rewrite IH. destruct (decide (k' = k0)) as [->|]; [|done].
      by rewrite decide_False.
Qed.

Lemma keys_set k v d :
  PyDict.keys (PyDict.set k v d) =
  if decide (k ∈ PyDict.keys d) then PyDict.keys d else PyDict.keys d ++ [k].
Proof.
  unfold PyDict.keys. induction d as [|[k0 v0] d IH].
  - destruct (decide (k ∈ [].*1)) as [Hin|]; [|done].
    by apply elem_of_nil in Hin.
  - cbn [PyDict.set]. destruct (decide (k = k0)) as [->|Hne].
    + rewrite decide_True; [done|]. left.
    + rewrite !fmap_cons, IH. cbn [fst].
      destruct (decide (k ∈ d.*1)) as [Hin|Hnin].
      * rewrite decide_True; [done|]. by right.
      * rewrite decide_False; [done|]. by intros [?|?]%elem_of_cons.
Qed.

Lemma NoDup_keys_set k v d :
  NoDup (PyDict.keys d) → NoDup (PyDict.keys (PyDict.set k v d)).
Proof.
  intros Hnd. rewrite keys_set. case_decide; [done|].
  apply NoDup_app. split_and!; [done| |apply NoDup_singleton].
  intros x Hx Heq%list_elem_of_singleton. by subst x.
Qed.

Lemma get_Some_elem k v d : PyDict.get k d = Some v → (k, v) ∈ d.
Proof.
  induction d as [|[k0 v0] d IH]; simpl; [done|].
  destruct (decide (k = k0)) as [->|]; [intros [= ->]; left|].
  intros H. right. by apply IH.
Qed.

Lemma elem_keys k v d : (k, v) ∈ d → k ∈ PyDict.keys d.
Proof. intros H. by apply (list_elem_of_fmap_2 fst) in H. Qed.

Lemma get_None k d : PyDict.get k d = None ↔ k ∉ PyDict.keys d.
Proof.
  unfold PyDict.keys. induction d as [|[k0 v0] d IH]; simpl.
  - split; [intros _; apply not_elem_of_nil|done].
  - destruct (decide (k = k0)) as [->|Hne].
    + split; [done|]. intros []. left.
    + rewrite IH, not_elem_of_cons. tauto.
Qed.

Lemma get_is_Some k d : is_Some (PyDict.get k d) ↔ k ∈ PyDict.keys d.
Proof.
  rewrite <- not_eq_None_Some, get_None.
  destruct (decide (k ∈ PyDict.keys d)); tauto.
Qed.

Lemma elem_get k v d : NoDup (PyDict.keys d) → (k, v) ∈ d → PyDict.get k d = Some v.
Proof.
  unfold PyDict.keys. induction d as [|[k0 v0] d IH]; simpl.
  - by intros _ ?%elem_of_nil.
  - intros [Hk0 Hnd]%NoDup_cons [[= -> ->]|Hin]%elem_of_cons.
    + by rewrite decide_True.
    + rewrite decide_False; [by apply IH|].
      intros ->. apply Hk0. by apply (list_elem_of_fmap_2 fst) in Hin.
Qed.

Lemma get_remove_ne k k' d :
  k ≠ k' → PyDict.get k' (PyDict.remove k d) = PyDict.get k' d.
Proof.
  intros Hne. induction d as [|[k0 v0] d IH]; simpl; [done|].
  destruct (decide (k = k0)) as [->|]; simpl.
  - by rewrite decide_False.
  - by rewrite IH.
Qed.

Lemma elem_remove k kv d : kv ∈ PyDict.remove k d → kv ∈ d.
Proof.
  induction d as [|[k0 v0] d IH]; simpl; [done|].
  destruct (decide (k = k0)) as [->|]; [by right|].
  intros [->|?]%elem_of_cons; [left|right; auto].
Qed.

Lemma elem_remove_ne k k' v d :
  k ≠ k' → (k', v) ∈ d → (k', v) ∈ PyDict.remove k d.
Proof.
  intros Hne. induction d as [|[k0 v0] d IH]; simpl; [done|].
  destruct (decide (k = k0)) as [->|].
  - by intros [[= -> ->]|?]%elem_of_cons.
  - intros [->|?]%elem_of_cons; [left|right; auto].
Qed.

Lemma remove_absent k d : k ∉ PyDict.keys d → PyDict.remove k d = d.
Proof.
  unfold PyDict.keys. induction d as [|[k0 v0] d IH]; simpl; [done|].
  intros [Hne Hnin]%not_elem_of_cons. rewrite decide_False by done.
  by rewrite IH.
Qed.

Lemma NoDup_keys_remove k d :
  NoDup (PyDict.keys d) →
  NoDup (PyDict.keys (PyDict.remove k d)) ∧ k ∉ PyDict.keys (PyDict.remove k d).
Proof.
  unfold PyDict.keys. induction d as [|[k0 v0] d IH]; simpl.
  - intros _. split; [constructor|apply not_elem_of_nil].
  - intros [Hk0 Hnd]%NoDup_cons. destruct (IH Hnd) as [IH1 IH2].
    destruct (decide (k = k0)) as [->|Hne]; simpl; [done|].
    split.
    + apply NoDup_cons. split; [|done]. intros Hin. apply Hk0.
      apply list_elem_of_fmap in Hin as ([k1 v1] & -> & Hin).
      apply elem_remove in Hin. by apply (list_elem_of_fmap_2 fst) in Hin.
    + by intros [?|?]%elem_of_cons.
Qed.

(** Entries of a dictionary that is split at its first entry for [k]. *)
Lemma remove_present k v d :
  PyDict.get k d = Some v →
  ∃ d1 d2, d = d1 ++ (k, v) :: d2 ∧ PyDict.remove k d = d1 ++ d2.
Proof.
  induction d as [|[k0 v0] d IH]; simpl; [done|].
  destruct (decide (k = k0)) as [->|Hne].
  - intros [= ->]. by exists [], d.
  - intros (d1 & d2 & -> & ->)%IH. by exists ((k0, v0) :: d1), d2.
Qed.

Lemma NoDup_keys_foldl_set (l : list (K * V)) d :
  NoDup (PyDict.keys d) → NoDup (PyDict.keys (foldl PyDict.set_pair d l)).
Proof.
  revert d. induction l as [|[k v] l IH]; intros d Hd; simpl; [done|].
  apply IH. by apply NoDup_keys_set.
Qed.

Lemma keys_foldl_set (l : list (K * V)) d x :
  x ∈ PyDict.keys (foldl PyDict.set_pair d l) ↔ x ∈ PyDict.keys d ∨ x ∈ l.*1.
Proof.
  revert d. induction l as [|[k v] l IH]; intros d; cbn [foldl].
  - rewrite fmap_nil, elem_of_nil. tauto.
  - rewrite IH. change (PyDict.set_pair d (k, v)) with (PyDict.set k v d).
    rewrite keys_set, fmap_cons, elem_of_cons. cbn [fst].
    case_decide.
    + split; [tauto|]. intros [?|[->|?]]; tauto.
    + rewrite elem_of_app, list_elem_of_singleton. tauto.
Qed.

Lemma get_foldl_set_absent (l : list (K * V)) d k :
  k ∉ l.*1 → PyDict.get k (foldl PyDict.set_pair d l) = PyDict.get k d.
Proof.
  revert d. induction l as [|[k0 v0] l IH]; intros d; cbn [foldl]; [done|].
  rewrite fmap_cons. cbn [fst].
  intros [Hne Hnin]%not_elem_of_cons. rewrite IH by done.
  change (PyDict.set_pair d (k0, v0)) with (PyDict.set k0 v0 d).
  rewrite get_set. by rewrite decide_False.
Qed.

(** The value of a key is the one of its last pair. *)
Lemma get_of_pairs_last (l1 l2 : list (K * V)) k v :
  k ∉ l2.*1 → PyDict.get k (PyDict.of_pairs (l1 ++ (k, v) :: l2)) = Some v.
Proof.
  intros Hnin. unfold PyDict.of_pairs.
  change (foldl _ [] ?l) with (foldl PyDict.set_pair [] l).
  rewrite foldl_app. cbn [foldl]. rewrite get_foldl_set_absent by done.
  change (PyDict.set_pair ?d (k, v)) with (PyDict.set k v d).
  rewrite get_set. by rewrite decide_True.
Qed.

Lemma NoDup_keys_of_pairs (l : list (K * V)) :
  NoDup (PyDict.keys (PyDict.of_pairs l)).
Proof. apply NoDup_keys_foldl_set. constructor. Qed.

Lemma keys_of_pairs (l : list (K * V)) x :
  x ∈ PyDict.keys (PyDict.of_pairs l) ↔ x ∈ l.*1.
Proof.
  unfold PyDict.of_pairs. change (foldl _ [] ?l) with (foldl PyDict.set_pair [] l).
  rewrite keys_foldl_set. unfold PyDict.keys. rewrite fmap_nil, elem_of_nil. tauto.
Qed.

(** Pairs with distinct keys are stored as they come. *)
Lemma foldl_set_fresh (l : list (K * V)) d :
  NoDup (PyDict.keys d ++ l.*1) → foldl PyDict.set_pair d l = d ++ l.
Proof.
  revert d. induction l as [|[k v] l IH]; intros d Hnd; cbn [foldl].
  - by rewrite app_nil_r.
  - rewrite fmap_cons in Hnd. cbn [fst] in Hnd.
    apply NoDup_app in Hnd as (Hd & Hdisj & [Hk Hl]%NoDup_cons).
    assert (Hfresh : PyDict.set k v d = d ++ [(k, v)]).
    { assert (Hkd : k ∉ PyDict.keys d) by (intros Hin; apply (Hdisj _ Hin); left).
      clear -Hkd. unfold PyDict.keys in Hkd.
      induction d as [|[k0 v0] d IH]; simpl; [done|].
      apply not_elem_of_cons in Hkd as [Hne Hkd].
      rewrite decide_False by done. by rewrite IH. }
    change (PyDict.set_pair d (k, v)) with (PyDict.set k v d). rewrite Hfresh, IH.
    + by rewrite <- app_assoc.
    + unfold PyDict.keys. rewrite fmap_app, <- app_assoc. simpl.
      apply NoDup_app. split_and!; [done| |by apply NoDup_cons].
      intros x Hx [->|Hin]%elem_of_cons.
      * apply (Hdisj _ Hx). left.
      * apply (Hdisj _ Hx). by right.
Qed.

Lemma of_pairs_NoDup (l : list (K * V)) : NoDup l.*1 → PyDict.of_pairs l = l.
Proof.
  intros Hnd. unfold PyDict.of_pairs.
  change (foldl _ [] ?l) with (foldl PyDict.set_pair [] l).
  by rewrite foldl_set_fresh.
Qed.

End dict_facts.

Lemma elem_set {K V} `{EqDecision K} (k : K) (v : V) (d : list (K * V)) kv :
  kv ∈ PyDict.set k v d → kv = (k, v) ∨ kv ∈ d.
Proof.
  induction d as [|[k0 v0] d IH]; simpl.
  - intros ?%list_elem_of_singleton. by left.
  - destruct (decide (k = k0)) as [->|Hne].
    + intros [->|?]%elem_of_cons; [by left|right; by right].
    + intros [->|Hin]%elem_of_cons; [right; left|].
      destruct (IH Hin) as [->|?]; [by left|right; by right].
Qed.

Lemma elem_of_pairs {K V} `{EqDecision K} (l : list (K * V)) kv :
  kv ∈ PyDict.of_pairs l → kv ∈ l.
Proof.
  unfold PyDict.of_pairs.
  assert (H : ∀ d, kv ∈ foldl PyDict.set_pair d l → kv ∈ d ∨ kv ∈ l).
  { induction l as [|[k v] l IH]; intros d; cbn [foldl]; [by left|].
    intros [Hin|?]%IH; [|right; by right].
    apply elem_set in Hin as [->|?]; [right; left|by left]. }
  intros [?%elem_of_nil|?]%H; done.
Qed.


(** * [topological_sort] *)

(** Every order visits each element of a set once. *)
Lemma iter_perm {seed : Hashing} (s : gset string) : iter s ≡ₚ elements s.
Proof.
  apply NoDup_Permutation; [apply iter_NoDup|apply NoDup_elements|].
  intros x. by rewrite iter_elem, elem_of_elements.
Qed.

Lemma iter_length {seed : Hashing} (s : gset string) : length (iter s) = size s.
Proof. by rewrite iter_perm. Qed.

(** A set of at most one element has one order. *)
Lemma iter_small (seed seed' : Hashing) (s : gset string) :
  size s ≤ 1 → iter (Hashing := seed) s = iter (Hashing := seed') s.
Proof.
  intros Hs.
  pose proof (iter_perm (seed := seed) s) as H1.
  pose proof (iter_perm (seed := seed') s) as H2.
  unfold size, set_size in Hs. simpl in Hs.
  destruct (elements s) as [|x [|y l]]; [| |simpl in Hs; lia].
  - apply Permutation_nil_r in H1, H2. congruence.
  - apply Permutation_singleton_r in H1, H2. congruence.
Qed.

Section topo_facts.
Context {seed : Hashing}.
Import Topo.
Implicit Types (g : graph_t) (roots order : list string).

Lemma has_predecessor_spec g n : has_predecessor g n = true ↔ referenced g n.
Proof.
  unfold has_predecessor, referenced, PyDict.values.
  induction g as [|[k ps] g IH]; simpl.
  - split; [done|]. intros (? & ? & []%elem_of_nil & _).
  - rewrite orb_true_iff, IH, bool_decide_eq_true. split.
    + intros [Hn|(k' & ps' & Hin & Hn)].
      * exists k, ps. split; [left|done].
      * exists k', ps'. split; [by right|done].
    + intros (k' & ps' & [[= -> ->]|Hin]%elem_of_cons & Hn); [by left|].
      right. by exists k', ps'.
Qed.

Lemma has_predecessor_false g n : has_predecessor g n = false ↔ ¬ referenced g n.
Proof. rewrite <- has_predecessor_spec. by destruct (has_predecessor g n). Qed.

Lemma list_pop_None {A} (l : list A) : list_pop l = None → l = [].
Proof. destruct l as [|x l]; [done|]. simpl. by destruct (list_pop l) as [[]|]. Qed.

Lemma list_pop_Some {A} (l r : list A) x :
  list_pop l = Some (r, x) → l = r ++ [x].
Proof.
  revert r. induction l as [|y l IH]; intros r; simpl; [done|].
  destruct (list_pop l) as [[r' z]|] eqn:E.
  - intros [= <- <-]. by rewrite (IH r').
  - intros [= <- <-]. by rewrite (list_pop_None l).
Qed.

Lemma sum_sizes_remove g root :
  sum_list (size <$> PyDict.values g) =
  size (default ∅ (PyDict.get root g)) +
  sum_list (size <$> PyDict.values (PyDict.remove root g)).
Proof.
  unfold PyDict.values. induction g as [|[k ps] g IH].
  - cbn. by rewrite size_empty.
  - cbn [PyDict.get PyDict.remove].
    destruct (decide (root = k)) as [->|Hne]; rewrite !fmap_cons; cbn; lia.
Qed.

(** The loop stops: a step lowers the measure. *)
Lemma step_measure g roots root order :
  match step g roots root order with
  | (g', roots', _) => measure g' roots' < measure g (roots ++ [root])
  end.
Proof.
  unfold step, PyDict.pop, measure.
  rewrite (sum_sizes_remove g root), !length_app. simpl.
  pose proof (length_filter
    (λ successor, has_predecessor (PyDict.remove root g) successor = false)
    (iter (default ∅ (PyDict.get root g)))) as Hle.
  rewrite iter_length in Hle. lia.
Qed.

Lemma loop_returns fuel : ∀ g roots order,
  measure g roots ≤ fuel → ∃ res, loop fuel g roots order = Return res.
Proof.
  induction fuel as [|fuel IH]; intros g roots order Hm.
  - destruct roots as [|x roots]; [by eexists|].
    unfold measure in Hm. simpl in Hm. lia.
  - cbn [loop]. destruct (list_pop roots) as [[roots' root]|] eqn:E; [|by eexists].
    apply list_pop_Some in E as ->.
    pose proof (step_measure g roots' root order) as Hlt.
    destruct (step g roots' root order) as [[g' roots''] order'].
    apply IH. lia.
Qed.

(** Reasoning about the loop by an invariant of its steps. *)
Lemma loop_invariant (I : graph_t → list string → list string → Prop) :
  (∀ g roots root order,
     I g (roots ++ [root]) order →
     match step g roots root order with
     | (g', roots', order') => I g' roots' order'
     end) →
  ∀ fuel g roots order g' order',
    I g roots order →
    loop fuel g roots order = Return (g', order') →
    I g' [] order'.
Proof.
  intros Hstep. induction fuel as [|fuel IH]; intros g roots order g' order' HI.
  - cbn [loop]. destruct (list_pop roots) as [[roots' root]|] eqn:E; [done|].
    apply list_pop_None in E as ->. by intros [= <- <-].
  - cbn [loop]. destruct (list_pop roots) as [[roots' root]|] eqn:E.
    + apply list_pop_Some in E as ->.
      specialize (Hstep g roots' root order HI).
      destruct (step g roots' root order) as [[g1 roots1] order1].
      by apply IH.
    + apply list_pop_None in E as ->. by intros [= <- <-].
Qed.

Lemma keys_elem {V} (d : list (string * V)) k :
  k ∈ PyDict.keys d ↔ ∃ v, (k, v) ∈ d.
Proof.
  unfold PyDict.keys. rewrite list_elem_of_fmap. split.
  - intros ([k' v] & -> & Hin). by exists v.
  - intros (v & Hin). by exists (k, v).
Qed.

(** A step of the loop keeps the invariant. *)
Lemma step_invariant g0 g roots root order :
  NoDup (PyDict.keys g0) →
  invariant g0 g (roots ++ [root]) order →
  match step g roots root order with
  | (g', roots', order') => invariant g0 g' roots' order'
  end.
Proof.
  intros Hg0 [Hkeys Hsub Hroots Hunref Hnodup Hdone Hbefore].
  unfold step, PyDict.pop.
  set (succs := default ∅ (PyDict.get root g)).
  set (g' := PyDict.remove root g).
  set (pushed := filter (λ s, has_predecessor g' s = false) (iter succs)).
  assert (Hg'sub : ∀ kv, kv ∈ g' → kv ∈ g) by (intros kv; apply elem_remove).
  assert (Href' : ∀ x, referenced g' x → referenced g x).
  { intros x (k & ps & Hin & Hx). exists k, ps. split; [by apply Hg'sub|done]. }
  destruct (NoDup_keys_remove root g Hkeys) as [Hkeys' Hrootgone].
  fold g' in Hkeys', Hrootgone.
  assert (Hlost : ∀ x, referenced g x → ¬ referenced g' x → x ∈ succs).
  { intros x (k & ps & Hin & Hx) Hnot. destruct (decide (k = root)) as [->|Hne].
    - unfold succs. by rewrite (elem_get _ _ _ Hkeys Hin).
    - exfalso. apply Hnot. exists k, ps. split; [|done].
      by apply elem_remove_ne. }
  assert (Hpushed : ∀ x, x ∈ pushed ↔ x ∈ succs ∧ ¬ referenced g' x).
  { intros x. unfold pushed.
    rewrite list_elem_of_filter, has_predecessor_false, iter_elem. tauto. }
  assert (Hsuccs_ref : ∀ x, x ∈ succs → referenced g x).
  { intros x Hx. unfold succs in Hx.
    destruct (PyDict.get root g) as [ps|] eqn:E; simpl in Hx.
    - exists root, ps. split; [by apply get_Some_elem|done].
    - by apply not_elem_of_empty in Hx. }
  assert (Hroot_unref : ¬ referenced g root).
  { apply Hunref. rewrite !elem_of_app, list_elem_of_singleton. tauto. }
  assert (Hpush_or : ∀ x, referenced g x → x ∈ pushed ∨ referenced g' x).
  { intros x Hx. destruct (has_predecessor g' x) eqn:E.
    - right. by apply has_predecessor_spec.
    - apply has_predecessor_false in E. left. apply Hpushed. auto. }
  split.
  - done.
  - intros kv Hkv. by apply Hsub, Hg'sub.
  - intros k Hk Hnref. apply elem_of_app.
    destruct (has_predecessor g k) eqn:E.
    + apply has_predecessor_spec in E. right. apply Hpushed. auto.
    + apply has_predecessor_false in E. left.
      assert (Hkg : k ∈ PyDict.keys g).
      { apply keys_elem in Hk as [v Hv]. apply keys_elem. exists v. auto. }
      specialize (Hroots k Hkg E).
      apply elem_of_app in Hroots as [?|Heq%list_elem_of_singleton]; [done|].
      subst k. by destruct Hrootgone.
  - intros x Hx Href. apply Href' in Href as Hrefg.
    rewrite !elem_of_app, elem_of_cons in Hx. destruct Hx as [[Hx|Hx]|[->|Hx]].
    + apply (Hunref x); [|done]. rewrite !elem_of_app. tauto.
    + by apply Hpushed in Hx as [_ Hx].
    + done.
    + apply (Hunref x); [|done]. rewrite !elem_of_app. tauto.
  - assert (Hperm : (roots ++ pushed) ++ root :: order
                    ≡ₚ pushed ++ (roots ++ [root]) ++ order).
    { rewrite <- !app_assoc. simpl.
      by rewrite (app_assoc roots pushed), (Permutation_app_comm roots pushed),
                 <- app_assoc. }
    rewrite Hperm. apply NoDup_app. split_and!; [|  |done].
    + apply NoDup_filter, iter_NoDup.
    + intros x [Hx _]%Hpushed Hold. by apply (Hunref x Hold), Hsuccs_ref.
  - intros k Hk. destruct (Hdone k Hk) as [Hkg|Hko]; [|right; by right].
    destruct (decide (k = root)) as [->|Hne]; [right; left|]. left.
    apply keys_elem in Hkg as [v Hv]. apply keys_elem. exists v.
    by apply elem_remove_ne.
  - intros n refs r Hn Hr Hno.
    apply elem_of_cons in Hno as [->|Hno].
    + assert (Hk0 : root ∈ PyDict.keys g0) by (by apply get_is_Some).
      destruct (Hdone root Hk0) as [Hkg|Hko].
      * apply get_is_Some in Hkg as [ps Hps].
        assert (ps = refs) as ->.
        { apply get_Some_elem, Hsub, (elem_get _ _ _ Hg0) in Hps. congruence. }
        assert (Hrs : r ∈ succs) by (unfold succs; by rewrite Hps).
        destruct (Hpush_or r (Hsuccs_ref r Hrs)) as [?|?]; [left|by right; left].
        apply elem_of_app. by right.
      * exfalso. apply NoDup_app in Hnodup as (_ & Hdisj & _).
        apply (Hdisj root); [|done]. apply elem_of_app. right. left.
    + destruct (Hbefore n refs r Hn Hr Hno) as [Hin|[Href|Hbef]].
      * apply elem_of_app in Hin as [Hin|Heq%list_elem_of_singleton].
        -- left. apply elem_of_app. by left.
        -- subst r. right; right. by exists [], order.
      * destruct (Hpush_or r Href) as [?|?]; [left|by right; left].
        apply elem_of_app. by right.
      * right; right. destruct Hbef as (o1 & o2 & -> & Hn2).
        by exists (root :: o1), o2.
Qed.

(** The state before the first iteration. *)
Lemma initial_invariant g0 :
  NoDup (PyDict.keys g0) →
  invariant g0 g0
    (filter (λ name, has_predecessor g0 name = false) (PyDict.keys g0)) [].
Proof.
  intros Hg0. split.
  - done.
  - done.
  - intros k Hk Hnref. apply list_elem_of_filter.
    by rewrite has_predecessor_false.
  - intros x. rewrite app_nil_r, list_elem_of_filter, has_predecessor_false. tauto.
  - rewrite app_nil_r. by apply NoDup_filter.
  - auto.
  - by intros n refs r _ _ ?%elem_of_nil.
Qed.

(** The loop of [topological_sort] returns, in a state that satisfies
    the invariant with no roots left. *)
Lemma run_invariant (l : list Assignment) :
  ∃ g order, run l = Return (g, order) ∧ invariant (build_graph l) g [] order.
Proof.
  unfold run.
  set (g0 := build_graph l).
  set (roots := filter _ _).
  destruct (loop_returns (measure g0 roots) g0 roots []) as [[g order] Hres]; [done|].
  exists g, order. split; [done|].
  assert (Hg0 : NoDup (PyDict.keys g0)) by apply NoDup_keys_of_pairs.
  apply (loop_invariant (invariant g0)) in Hres; [done| |].
  - intros. by apply step_invariant.
  - by apply initial_invariant.
Qed.

(** ** [sorted] *)

Lemma insert_by_key_perm {A} (x : nat * A) l : insert_by_key x l ≡ₚ x :: l.
Proof.
  induction l as [|y l IH]; simpl; [done|].
  case_decide; [done|]. by rewrite IH, Permutation_swap.
Qed.

Lemma sort_by_key_perm {A} (l : list (nat * A)) : sort_by_key l ≡ₚ l.
Proof.
  induction l as [|x l IH]; simpl; [done|].
  by rewrite insert_by_key_perm, IH.
Qed.

Lemma insert_by_key_sorted {A} (x : nat * A) l :
  StronglySorted (λ a b, a.1 ≤ b.1) l →
  StronglySorted (λ a b, a.1 ≤ b.1) (insert_by_key x l).
Proof.
  induction l as [|y l IH]; simpl; intros Hs.
  - by repeat constructor.
  - apply StronglySorted_inv in Hs as [Hs Hy]. case_decide.
    + constructor; [by constructor|]. constructor; [done|].
      eapply Forall_impl; [exact Hy|]. simpl. lia.
    + constructor; [by apply IH|].
      rewrite insert_by_key_perm. constructor; [lia|done].
Qed.

Lemma sort_by_key_sorted {A} (l : list (nat * A)) :
  StronglySorted (λ a b, a.1 ≤ b.1) (sort_by_key l).
Proof.
  induction l as [|x l IH]; simpl; [constructor|].
  by apply insert_by_key_sorted.
Qed.

Lemma StronglySorted_lookup {A} (R : relation A) l i j x y :
  StronglySorted R l → i < j → l !! i = Some x → l !! j = Some y → R x y.
Proof.
  intros Hs Hij Hi Hj. rewrite <- (take_drop j l) in Hs.
  eapply StronglySorted_app_1_elem_of; [exact Hs| |].
  - apply elem_of_take. eauto.
  - apply list_elem_of_lookup. exists 0. by rewrite lookup_drop, Nat.add_0_r.
Qed.

(** What [sorted] returns: a permutation of its input in which an element
    with a smaller key stands before one with a larger key. *)
Lemma sorted_spec {A} (key : A → option nat) (xs out : list A) :
  sorted key xs = Return out →
  out ≡ₚ xs ∧
  ∀ i a b ka kb,
    out !! i = Some a → b ∈ xs → key a = Some ka → key b = Some kb → kb < ka →
    ∃ j, j < i ∧ out !! j = Some b.
Proof.
  unfold sorted.
  destruct (mapM _ xs) as [kxs|] eqn:E; [|done]. intros [= <-].
  apply mapM_Some in E.
  assert (Hkxs : ∀ k x, (k, x) ∈ kxs → key x = Some k).
  { intros k x Hin. apply list_elem_of_lookup in Hin as [i Hi].
    destruct (Forall2_lookup_r _ _ _ _ _ E Hi) as (x' & _ & Hx').
    destruct (key x') as [k'|] eqn:Ek; by simplify_eq/=. }
  assert (Hsnd : kxs.*2 = xs).
  { clear Hkxs. induction E as [|x [k y] xs kxs Hx _ IH]; [done|].
    rewrite fmap_cons, IH. f_equal. destruct (key x); by simplify_eq/=. }
  pose proof (sort_by_key_perm kxs) as Hperm.
  split.
  - by rewrite Hperm, Hsnd.
  - intros i a b ka kb Hi Hb Ha Hkb Hlt.
    rewrite list_lookup_fmap in Hi.
    destruct (sort_by_key kxs !! i) as [[ka' a']|] eqn:Hi'; [|done].
    simpl in Hi. injection Hi as ->.
    assert (ka' = ka) as ->.
    { apply list_elem_of_lookup_2 in Hi'. rewrite Hperm in Hi'.
      apply Hkxs in Hi'. congruence. }
    assert (Hbin : (kb, b) ∈ sort_by_key kxs).
    { rewrite Hperm. rewrite <- Hsnd in Hb.
      apply list_elem_of_fmap in Hb as ([k y] & -> & Hin).
      pose proof (Hkxs _ _ Hin) as Hy. simpl in *. rewrite Hkb in Hy.
      by injection Hy as ->. }
    apply list_elem_of_lookup in Hbin as [j Hj].
    exists j. split; [|by rewrite list_lookup_fmap, Hj].
    destruct (decide (j < i)) as [|Hge]; [done|]. exfalso.
    destruct (decide (i = j)) as [->|Hne].
    { rewrite Hi' in Hj. injection Hj as -> _. lia. }
    pose proof (StronglySorted_lookup _ _ i j _ _
                  (sort_by_key_sorted kxs) ltac:(lia) Hi' Hj). simpl in *. lia.
Qed.

Lemma sorted_returns {A} (key : A → option nat) (xs : list A) :
  (∀ x, x ∈ xs → is_Some (key x)) → ∃ out, sorted key xs = Return out.
Proof.
  intros Hkeys. unfold sorted.
  destruct (mapM _ xs) as [kxs|] eqn:E; [by eexists|].
  apply mapM_None, Exists_exists in E as (x & Hx & E).
  destruct (Hkeys x Hx) as [k Hk]. by rewrite Hk in E.
Qed.

(** ** [index] *)

Lemma index_app_fresh x (o1 o2 : list string) :
  x ∉ o1 → index x (o1 ++ x :: o2) = Some (length o1).
Proof.
  induction o1 as [|y o1 IH]; simpl.
  - intros _. by rewrite decide_True.
  - intros [Hne Hnin]%not_elem_of_cons. rewrite decide_False by done.
    by rewrite IH.
Qed.

Lemma index_is_Some x (l : list string) : x ∈ l → is_Some (index x l).
Proof.
  intros (l1 & l2 & -> & Hnin)%list_elem_of_split_l.
  rewrite index_app_fresh by done. by eexists.
Qed.

Lemma before_index r n (order : list string) :
  NoDup order → before r n order →
  ∃ i j, index r order = Some i ∧ index n order = Some j ∧ i < j.
Proof.
  intros Hnd (o1 & o2 & -> & Hn).
  apply list_elem_of_split in Hn as (o3 & o4 & ->).
  apply NoDup_app in Hnd as (_ & Hdisj & [Hr Hnd]%NoDup_cons).
  apply NoDup_app in Hnd as (_ & Hdisj' & [Hn _]%NoDup_cons).
  exists (length o1), (length (o1 ++ r :: o3)). split_and!.
  - apply index_app_fresh. intros Hin. apply (Hdisj _ Hin). left.
  - replace (o1 ++ r :: o3 ++ n :: o4) with ((o1 ++ r :: o3) ++ n :: o4)
      by (by rewrite <- app_assoc).
    apply index_app_fresh. intros [Hin|Hin]%elem_of_app.
    + apply (Hdisj _ Hin). right. apply elem_of_app. right. left.
    + apply elem_of_cons in Hin as [->|Hin].
      * apply Hr. apply elem_of_app. right. left.
      * apply (Hdisj' _ Hin). left.
  - rewrite length_app. simpl. lia.
Qed.

Lemma topological_sort_unfold (l : list Assignment) g order :
  run l = Return (g, order) →
  topological_sort l =
  match g with
  | _ :: _ => Raise (CyclicReferences g)
  | [] => sorted (λ a, index (reference_name a) order) l
  end.
Proof. unfold topological_sort. by intros ->. Qed.

Lemma build_graph_keys (l : list Assignment) k :
  k ∈ PyDict.keys (build_graph l) ↔ k ∈ reference_name <$> l.
Proof.
  unfold build_graph. rewrite keys_of_pairs, <- list_fmap_compose. done.
Qed.

(** With distinct names, the graph holds the references of every
    assignment. *)
Lemma build_graph_get (l : list Assignment) a :
  NoDup (reference_name <$> l) → a ∈ l →
  PyDict.get (reference_name a) (build_graph l) = Some (references a).
Proof.
  intros Hnd Hin. unfold build_graph. rewrite of_pairs_NoDup.
  - apply elem_get.
    + unfold PyDict.keys. by rewrite <- list_fmap_compose.
    + by apply (list_elem_of_fmap_2 (λ a, (reference_name a, references a))).
  - by rewrite <- list_fmap_compose.
Qed.

End topo_facts.

(** A self-supporting set of names never leaves the graph. *)
Lemma run_self_supporting {seed : Hashing} (l : list Assignment) (S : string → Prop) g order :
  Topo.self_supporting (Topo.build_graph l) S →
  Topo.run l = Return (g, order) →
  ∀ k, S k → PyDict.get k g = PyDict.get k (Topo.build_graph l).
Proof.
  intros HS Hrun. unfold Topo.run in Hrun.
  set (g0 := Topo.build_graph l) in *.
  apply (loop_invariant (λ g roots order,
           (∀ k, S k → PyDict.get k g = PyDict.get k g0) ∧
           (∀ x, S x → x ∉ roots))) in Hrun; [by destruct Hrun| |].
  - clear Hrun g order. intros g roots root order [Hget Hroots].
    unfold Topo.step, PyDict.pop.
    assert (Hroot : ¬ S root).
    { intros Hr. apply (Hroots _ Hr). apply elem_of_app. right. left. }
    assert (Hget' : ∀ k, S k → PyDict.get k (PyDict.remove root g) = PyDict.get k g0).
    { intros k Hk. rewrite get_remove_ne; [auto|]. by intros ->. }
    split; [done|]. intros x Hx [Hin|Hin]%elem_of_app.
    + apply (Hroots _ Hx). apply elem_of_app. by left.
    + apply list_elem_of_filter in Hin as [Hnp _].
      apply has_predecessor_false in Hnp. apply Hnp.
      destruct (HS x Hx) as (k & ps & Hk & Hps & Hxps).
      exists k, ps. split; [|done]. apply get_Some_elem. by rewrite Hget'.
  - split; [done|]. intros x Hx [Hnp _]%list_elem_of_filter.
    apply has_predecessor_false in Hnp. apply Hnp.
    destruct (HS x Hx) as (k & ps & Hk & Hps & Hxps).
    exists k, ps. split; [|done]. by apply get_Some_elem.
Qed.

(** The sort depends on the order of the sets of its graph only: two
    orders that agree on them give the same run. *)
Lemma loop_same_order (seed seed' : Hashing) fuel (g : Topo.graph_t) roots order :
  (∀ k ps, (k, ps) ∈ g → iter (Hashing := seed) ps = iter (Hashing := seed') ps) →
  Topo.loop (seed := seed) fuel g roots order
  = Topo.loop (seed := seed') fuel g roots order.
Proof.
  revert g roots order. induction fuel as [|fuel IH]; intros g roots order Hg;
    cbn [Topo.loop]; destruct (Topo.list_pop roots) as [[roots' root]|]; try done.
  unfold Topo.step, PyDict.pop.
  assert (Hroot : iter (Hashing := seed) (default ∅ (PyDict.get root g))
                  = iter (Hashing := seed') (default ∅ (PyDict.get root g))).
  { destruct (PyDict.get root g) as [ps|] eqn:E; simpl.
    - apply (Hg root). by apply get_Some_elem.
    - apply iter_small. rewrite size_empty. lia. }
  rewrite Hroot. apply IH. intros k ps Hin. apply (Hg k). by eapply elem_remove.
Qed.

Lemma topological_sort_small (seed seed' : Hashing) (l : list Assignment) :
  Forall (λ a, size (references a) ≤ 1) l →
  Topo.topological_sort (seed := seed) l = Topo.topological_sort (seed := seed') l.
Proof.
  intros Hl. unfold Topo.topological_sort, Topo.run.
  rewrite (loop_same_order seed seed'); [done|].
  intros k ps Hin. apply iter_small.
  unfold Topo.build_graph in Hin. apply elem_of_pairs in Hin.
  apply list_elem_of_fmap in Hin as (a & [= -> ->] & Ha).
  by apply (proj1 (Forall_forall _ _) Hl).
Qed.

(** The names on a cycle through [n] support themselves. *)
Lemma cycle_self_supporting (g0 : list (string * gset string)) n :
  tc (Topo.edge g0) n n →
  Topo.self_supporting g0 (λ x, rtc (Topo.edge g0) n x ∧ rtc (Topo.edge g0) x n).
Proof.
  intros Hcyc x [Hnx Hxn].
  assert (Htc : tc (Topo.edge g0) n x).
  { apply rtc_tc in Hnx as [<-|?]; done. }
  apply tc_nsteps in Htc as (m & Hm & Hsteps).
  destruct m as [|m]; [lia|].
  apply nsteps_inv_r in Hsteps as (k & Hnk & Hkx).
  destruct Hkx as (ps & Hps & Hxps). exists k, ps.
  split_and!; [by eapply rtc_nsteps_2| |done|done].
  eapply rtc_l; [|exact Hxn]. by exists ps.
Qed.

(** In a finite set in which every element has a successor, some element
    lies on a cycle. *)
Lemma finite_cycle {A} `{EqDecision A} (R : relation A) (K : list A) :
  K ≠ [] → (∀ x, x ∈ K → ∃ y, y ∈ K ∧ R x y) → ∃ x, x ∈ K ∧ tc R x x.
Proof.
  intros HK Hsucc.
  assert (Hwalk : ∀ m path x,
            x ∈ K → NoDup path → (∀ p, p ∈ path → p ∈ K ∧ tc R p x) →
            length K ≤ m + length path → ∃ z, z ∈ K ∧ tc R z z).
  { induction m as [|m IH]; intros path x Hx Hnd Hpath Hlen.
    - destruct (decide (x ∈ path)) as [Hin|Hnin].
      + exists x. split; [done|]. by apply Hpath.
      + exfalso. assert (length (x :: path) ≤ length K); [|simpl in *; lia].
        apply submseteq_length, NoDup_submseteq; [by constructor|].
        intros p [->|Hp]%elem_of_cons; [done|]. by apply Hpath.
    - destruct (decide (x ∈ path)) as [Hin|Hnin].
      { exists x. split; [done|]. by apply Hpath. }
      destruct (Hsucc x Hx) as (y & Hy & Hxy).
      apply (IH (x :: path) y); [done|by constructor| |simpl; lia].
      intros p [->|Hp]%elem_of_cons.
      + split; [done|]. by apply tc_once.
      + destruct (Hpath p Hp) as [HpK Hpx]. split; [done|].
        eapply tc_r; eauto. }
  destruct K as [|x0 K']; [done|].
  apply (Hwalk (length (x0 :: K')) [] x0); [left|constructor| |lia].
  by intros p ?%elem_of_nil.
Qed.

Lemma tc_flip {A} (R : relation A) x y : tc (flip R) x y → tc R y x.
Proof.
  induction 1 as [x y H|x y z H _ IH]; [by apply tc_once|].
  eapply tc_r; eauto.
Qed.

(** C4. The loop of [topological_sort] always stops.  When names are left
    in the graph at that point, the sort raises the cycle error, which
    carries exactly the leftover entries: entries of the reference graph,
    each listed by a leftover entry, among them every name that lies on a
    cycle and at least one such name.  When no name is left, it returns all
    the assignments; it never returns a part of them.  Two assignments that refer to each other
    raise the error with both entries. *)
Theorem topological_sort_cycle_error {seed : Hashing} :
  (∀ l : list Assignment,
     ∃ g order,
       Topo.run l = Return (g, order) ∧
       (∀ k ps, (k, ps) ∈ g →
          PyDict.get k (Topo.build_graph l) = Some ps ∧ Topo.referenced g k) ∧
       (∀ n, tc (Topo.edge (Topo.build_graph l)) n n → n ∈ PyDict.keys g) ∧
       (g ≠ [] →
        Topo.topological_sort l = Raise (CyclicReferences g) ∧
        ∃ n, n ∈ PyDict.keys g ∧ tc (Topo.edge (Topo.build_graph l)) n n) ∧
       (g = [] → ∃ out, Topo.topological_sort l = Return out ∧ out ≡ₚ l)) ∧
  Topo.topological_sort [Ex.aD; Ex.aE]
    = Raise (CyclicReferences [("D", {["E"]}); ("E", {["D"]})]).
Proof.
  split; [|by vm_compute].
  intros l. destruct (run_invariant l) as (g & order & Hrun & Hinv).
  exists g, order. split; [done|].
  pose proof (NoDup_keys_of_pairs
    ((λ a, (reference_name a, references a)) <$> l)) as Hg0.
  fold (Topo.build_graph l) in Hg0.
  rewrite (topological_sort_unfold _ _ _ Hrun). split_and!.
  - intros k ps Hin. split.
    + apply elem_get; [done|]. by apply (Topo.inv_sub _ _ _ _ Hinv).
    + destruct (Topo.has_predecessor g k) eqn:E;
        [by apply has_predecessor_spec|].
      apply has_predecessor_false in E.
      apply (Topo.inv_roots _ _ _ _ Hinv) in E; [by apply elem_of_nil in E|].
      by eapply elem_keys.
  - intros n Hcyc.
    pose proof (run_self_supporting l _ g order
                  (cycle_self_supporting _ n Hcyc) Hrun n) as Hn.
    apply get_is_Some. rewrite Hn by done.
    inversion Hcyc as [? ? Hedge|? y ? Hedge _]; subst;
      destruct Hedge as (ps & Hps & _); by eexists.
  - intros Hg. split; [by destruct g|].
    destruct (finite_cycle (flip (Topo.edge (Topo.build_graph l))) (PyDict.keys g))
      as (n & Hn & Hcyc).
    + destruct g; [done|]. by destruct p.
    + intros k Hk.
      destruct (Topo.has_predecessor g k) eqn:E.
      * apply has_predecessor_spec in E as (k' & ps' & Hin & Hkps).
        exists k'. split; [by eapply elem_keys|]. exists ps'. split; [|done].
        apply elem_get; [done|]. by apply (Topo.inv_sub _ _ _ _ Hinv).
      * apply has_predecessor_false in E.
        apply (Topo.inv_roots _ _ _ _ Hinv) in E; [by apply elem_of_nil in E|done].
    + exists n. split; [done|]. by apply tc_flip.
  - intros ->. destruct (sorted_returns (λ a, Topo.index (reference_name a) order) l)
      as [out Hout].
    + intros a Ha. apply index_is_Some.
      destruct (Topo.inv_done _ _ _ _ Hinv (reference_name a)) as [Hk|Hk]; [| |done].
      * apply build_graph_keys. by apply list_elem_of_fmap_2.
      * by apply elem_of_nil in Hk.
    + exists out. split; [done|]. by apply sorted_spec in Hout as [? _].
Qed.

(** C1 as stated fails: a reference to a name that no input assignment
    carries is sorted without an error, in whatever order sets are
    visited, and that name stands nowhere in the output. *)
Lemma undefined_reference_is_sorted :
  (∀ seed : Hashing, Topo.topological_sort [Ex.lonely] = Return [Ex.lonely]) ∧
  "X" ∈ references Ex.lonely ∧ "X" ≠ reference_name Ex.lonely ∧
  ∀ j b, [Ex.lonely] !! j = Some b → reference_name b ≠ "X".
Proof.
  split_and!; [| |done|].
  { intros seed. rewrite (topological_sort_small seed by_elements); [by vm_compute|].
    apply (bool_decide_unpack _). by vm_compute. }
  { apply (bool_decide_unpack _). by vm_compute. }
  intros j b [_ <-]%list_lookup_singleton_Some. done.
Qed.

(** C1, amended.  When [topological_sort] returns, it returns all the
    assignments, and for every assignment [a] of the output whose
    references are the ones the graph holds for its name (every assignment
    when the names are pairwise distinct, the last one of its name
    otherwise), every name in [a.references()] other than its own that is
    the name of an input assignment stands at an earlier position. *)
Theorem topological_sort_dependency_order {seed : Hashing}
    (l out : list Assignment) :
  Topo.topological_sort l = Return out →
  out ≡ₚ l ∧
  (NoDup (reference_name <$> l) →
   ∀ a, a ∈ l →
     PyDict.get (reference_name a) (Topo.build_graph l) = Some (references a)) ∧
  ∀ i a r,
    out !! i = Some a →
    PyDict.get (reference_name a) (Topo.build_graph l) = Some (references a) →
    r ∈ references a → r ≠ reference_name a → r ∈ reference_name <$> l →
    ∃ j b, j < i ∧ out !! j = Some b ∧ reference_name b = r.
Proof.
  intros Hsort. destruct (run_invariant l) as (g & order & Hrun & Hinv).
  rewrite (topological_sort_unfold _ _ _ Hrun) in Hsort.
  destruct g as [|kv g]; [|done].
  apply sorted_spec in Hsort as [Hperm Hord].
  split_and!; [done|by intros Hnd a Ha; apply build_graph_get|].
  intros i a r Hi Hget Hr Hne Hdef.
  assert (Hin_order : ∀ k, k ∈ reference_name <$> l → k ∈ order).
  { intros k Hk. apply build_graph_keys in Hk.
    destruct (Topo.inv_done _ _ _ _ Hinv k Hk) as [Hk'|]; [|done].
    by apply elem_of_nil in Hk'. }
  assert (Ha : a ∈ l).
  { rewrite <- Hperm. by eapply list_elem_of_lookup_2. }
  assert (Hbefore : Topo.before r (reference_name a) order).
  { destruct (Topo.inv_before _ _ _ _ Hinv _ _ r Hget Hr) as [Hin|[Href|?]];
      [|by apply elem_of_nil in Hin| |done].
    - apply Hin_order. by apply list_elem_of_fmap_2.
    - destruct Href as (? & ? & Hin & _). by apply elem_of_nil in Hin. }
  pose proof (Topo.inv_nodup _ _ _ _ Hinv) as Hnd. simpl in Hnd.
  destruct (before_index _ _ _ Hnd Hbefore) as (ir & ia & Hir & Hia & Hlt).
  apply list_elem_of_fmap in Hdef as (b & -> & Hb).
  destruct (Hord i a b ia ir Hi Hb Hia Hir Hlt) as (j & Hj & Hjb).
  by exists j, b.
Qed.

Lemma topological_sort_dependency_order_witness :
  [Ex.aB; Ex.aA; Ex.aC] ≡ₚ [Ex.aC; Ex.aB; Ex.aA] ∧
  (NoDup (reference_name <$> [Ex.aC; Ex.aB; Ex.aA]) →
   ∀ a, a ∈ [Ex.aC; Ex.aB; Ex.aA] →
     PyDict.get (reference_name a) (Topo.build_graph [Ex.aC; Ex.aB; Ex.aA])
       = Some (references a)) ∧
  ∀ i a r,
    [Ex.aB; Ex.aA; Ex.aC] !! i = Some a →
    PyDict.get (reference_name a) (Topo.build_graph [Ex.aC; Ex.aB; Ex.aA])
      = Some (references a) →
    r ∈ references a → r ≠ reference_name a →
    r ∈ reference_name <$> [Ex.aC; Ex.aB; Ex.aA] →
    ∃ j b, j < i ∧ [Ex.aB; Ex.aA; Ex.aC] !! j = Some b ∧ reference_name b = r.
Proof.
  apply (topological_sort_dependency_order (seed := by_elements)
           [Ex.aC; Ex.aB; Ex.aA]).
  vm_compute. reflexivity.
Defined.

(** C10 as stated fails: the references of a self-referential assignment
    are overwritten in the graph by a later assignment of the same name,
    and the sort returns both, in whatever order sets are visited. *)
Lemma overwritten_self_reference_is_sorted :
  reference_name Ex.selfA ∈ references Ex.selfA ∧
  ∀ seed : Hashing,
    Topo.topological_sort [Ex.selfA; Ex.plainA] = Return [Ex.selfA; Ex.plainA].
Proof.
  split; [apply (bool_decide_unpack _); by vm_compute|].
  intros seed. rewrite (topological_sort_small seed by_elements); [by vm_compute|].
  apply (bool_decide_unpack _). by vm_compute.
Qed.

(** C10, amended.  An assignment that has its own name among its
    references, and after which no assignment of the input carries that
    name, makes [topological_sort] raise the cycle error whatever the other
    assignments are; its name is among the leftover entries. *)
Theorem topological_sort_self_reference {seed : Hashing}
    (l1 l2 : list Assignment) (a : Assignment) :
  reference_name a ∈ references a →
  reference_name a ∉ reference_name <$> l2 →
  ∃ g, Topo.topological_sort (l1 ++ a :: l2) = Raise (CyclicReferences g) ∧
       reference_name a ∈ PyDict.keys g.
Proof.
  intros Hself Hlast. set (l := l1 ++ a :: l2).
  destruct (run_invariant l) as (g & order & Hrun & _).
  assert (Hget : PyDict.get (reference_name a) (Topo.build_graph l)
                 = Some (references a)).
  { unfold Topo.build_graph, l. rewrite fmap_app, fmap_cons.
    apply get_of_pairs_last. by rewrite <- list_fmap_compose. }
  assert (HS : Topo.self_supporting (Topo.build_graph l) (λ x, x = reference_name a)).
  { intros x ->. by exists (reference_name a), (references a). }
  pose proof (run_self_supporting l _ g order HS Hrun _ eq_refl) as Hg.
  rewrite Hget in Hg.
  exists g. rewrite (topological_sort_unfold _ _ _ Hrun).
  split; [by destruct g|]. apply get_is_Some. by eexists.
Qed.

Lemma topological_sort_self_reference_witness :
  ∃ g, Topo.topological_sort (seed := by_elements) ([Ex.aB] ++ Ex.selfA :: [Ex.aC])
         = Raise (CyclicReferences g) ∧
       reference_name Ex.selfA ∈ PyDict.keys g.
Proof.
  apply (topological_sort_self_reference [Ex.aB] [Ex.aC] Ex.selfA).
  - apply (bool_decide_unpack _). by vm_compute.
  - apply (bool_decide_unpack _). by vm_compute.
Defined.

(** * [dependency_sort] *)

Section tarjan_facts.
Import Tarjan.
Variable graph : graph_t.
Hypothesis graph_closed : ∀ x y, edge graph x y → y ∈ PyDict.keys graph.

Abbreviation edge := (edge graph).
Abbreviation reach := (reach graph).
Abbreviation wf := (wf graph).
Abbreviation segment := (segment graph).
Abbreviation inloop := (inloop graph).
Abbreviation post := (post graph).
Implicit Types (s : state) (v w x y : Assignment).

Lemma bind_Return {A B} (a : A) (f : A → result B) : (Return a ≫= f) = f a.
Proof. done. Qed.

Lemma elem_of_snoc {A} (l : list A) (x y : A) : y ∈ l ++ [x] ↔ y ∈ l ∨ y = x.
Proof. by rewrite elem_of_app, list_elem_of_singleton. Qed.

Lemma rank_set_lowlink v l s x : rank (set_lowlink v l s) x = rank s x.
Proof. done. Qed.

Lemma lowv_set_lowlink v l s x :
  lowv (set_lowlink v l s) x = if decide (x = v) then l else lowv s x.
Proof.
  unfold lowv, set_lowlink. simpl. rewrite lookup_insert.
  destruct (decide (v = x)) as [->|]; [by rewrite decide_True|].
  by rewrite decide_False.
Qed.

Lemma visited_set_lowlink v l s x :
  visited s v → visited (set_lowlink v l s) x ↔ visited s x.
Proof.
  unfold visited, set_lowlink. simpl. intros Hv. rewrite lookup_insert.
  destruct (decide (v = x)) as [->|]; [|done]. split; [done|by eexists].
Qed.

Lemma stack_visited s x : wf s → x ∈ stack s → visited s x.
Proof. intros Hwf Hx. apply (wf_part _ _ Hwf). by left. Qed.

Lemma sorted_ext (f g : Assignment → nat) (l : list Assignment) :
  (∀ x, x ∈ l → f x = g x) →
  StronglySorted (λ x y, f y < f x) l → StronglySorted (λ x y, g y < g x) l.
Proof.
  induction l as [|a l IH]; intros Heq Hs; [constructor|].
  apply StronglySorted_inv in Hs as [Hs Ha]. constructor.
  - apply IH; [|done]. intros x Hx. apply Heq. by right.
  - rewrite Forall_forall in Ha |- *. intros y Hy.
    rewrite <- !Heq; [by apply Ha|left|by right].
Qed.

(** Lowering the low link of a node of the stack to the rank of a node of
    the stack that it reaches keeps the invariant. *)
Lemma wf_set_lowlink s v l :
  wf s → v ∈ stack s →
  (∃ y, y ∈ stack s ∧ rank s y = l ∧ l ≤ rank s v ∧ reach v y) →
  wf (set_lowlink v l s).
Proof.
  intros Hwf Hv Hl. pose proof (stack_visited _ _ Hwf Hv) as Hvis.
  destruct Hwf as [Hdom Hkeys Hlt Hinj Hsorted Hpart Hnodup Hlow Hord Hscc Hne].
  split; try done.
  - intros x. rewrite visited_set_lowlink by done. apply Hdom.
  - intros x. rewrite visited_set_lowlink by done. apply Hkeys.
  - intros x. rewrite visited_set_lowlink by done. apply Hlt.
  - intros x y. rewrite !visited_set_lowlink by done. apply Hinj.
  - intros x. rewrite visited_set_lowlink by done. apply Hpart.
  - intros x Hx. simpl in Hx. rewrite lowv_set_lowlink.
    destruct (decide (x = v)) as [->|Hne']; [done|]. by apply Hlow.
Qed.

Lemma rank_enter v s x :
  rank (enter v s) x = if decide (x = v) then index_counter s else rank s x.
Proof.
  unfold rank, enter. simpl. rewrite lookup_insert.
  destruct (decide (v = x)) as [->|]; [by rewrite decide_True|].
  by rewrite decide_False.
Qed.

Lemma lowv_enter v s x :
  lowv (enter v s) x = if decide (x = v) then index_counter s else lowv s x.
Proof.
  unfold lowv, enter. simpl. rewrite lookup_insert.
  destruct (decide (v = x)) as [->|]; [by rewrite decide_True|].
  by rewrite decide_False.
Qed.

Lemma visited_enter v s x : visited (enter v s) x ↔ x = v ∨ visited s x.
Proof.
  unfold visited, enter. simpl. rewrite lookup_insert.
  destruct (decide (v = x)) as [->|Hne].
  - split; [by left|by eexists].
  - split; [by right|]. by intros [->|?].
Qed.

Lemma wf_enter s v :
  wf s → v ∈ PyDict.keys graph → ¬ visited s v → wf (enter v s).
Proof.
  intros [Hdom Hkeys Hlt Hinj Hsorted Hpart Hnodup Hlow Hord Hscc Hne] Hv Hnew.
  assert (Hold : ∀ x, visited s x → x ≠ v) by (intros x Hx ->; done).
  assert (Hrank : ∀ x, visited s x → rank (enter v s) x = rank s x).
  { intros x Hx. rewrite rank_enter, decide_False; [done|by apply Hold]. }
  assert (Hlowv : ∀ x, visited s x → lowv (enter v s) x = lowv s x).
  { intros x Hx. rewrite lowv_enter, decide_False; [done|by apply Hold]. }
  assert (Hst : ∀ x, x ∈ stack s → visited s x).
  { intros x Hx. apply Hpart. by left. }
  split.
  - intros x. rewrite visited_enter. unfold enter. simpl. rewrite lookup_insert.
    destruct (decide (v = x)) as [->|Hne'].
    + split; [by eexists|by left].
    + rewrite <- Hdom. split; [by intros [->|?]|by right].
  - intros x [->|Hx]%visited_enter; auto.
  - intros x [->|Hx]%visited_enter.
    + rewrite rank_enter, decide_True by done. simpl. lia.
    + rewrite Hrank by done. specialize (Hlt x Hx). simpl. lia.
  - intros x y [->|Hx]%visited_enter [->|Hy]%visited_enter; [done| | |].
    + rewrite rank_enter, decide_True, Hrank by done.
      specialize (Hlt y Hy). lia.
    + rewrite (rank_enter v s v), decide_True, Hrank by done.
      specialize (Hlt x Hx). lia.
    + rewrite !Hrank by done. by apply Hinj.
  - simpl. constructor.
    + apply (sorted_ext (rank s)); [|done]. intros x Hx. symmetry. auto.
    + apply Forall_forall. intros y Hy.
      rewrite (rank_enter v s v), decide_True by done.
      rewrite Hrank by auto. apply Hlt. auto.
  - intros x. rewrite visited_enter, Hpart. simpl. rewrite elem_of_cons. tauto.
  - simpl. apply NoDup_cons. split; [|done]. intros Hin. apply Hnew, Hpart.
    by apply elem_of_app in Hin.
  - intros x [->|Hx]%elem_of_cons.
    + exists v. rewrite rank_enter, lowv_enter, !decide_True by done.
      split_and!; [left|done|done|done].
    + destruct (Hlow x Hx) as (y & Hy & Hry & Hle & Hreach).
      exists y. rewrite !Hrank, Hlowv by auto. split_and!; [by right|done..].
  - done.
  - done.
  - done.
Qed.

Lemma frame_refl s : frame s s.
Proof. split; try done. exists []. by rewrite app_nil_r. Qed.

Lemma frame_trans s0 s1 s2 : frame s0 s1 → frame s1 s2 → frame s0 s2.
Proof.
  intros [Hc1 Hv1 Hr1 Hl1 [n1 Hn1] Hnew1] [Hc2 Hv2 Hr2 Hl2 [n2 Hn2] Hnew2].
  split.
  - lia.
  - auto.
  - intros x Hx. rewrite Hr2, Hr1; auto.
  - intros x Hx. rewrite Hl2, Hl1; auto.
  - exists (n1 ++ n2). by rewrite Hn2, Hn1, app_assoc.
  - intros x Hx0 Hx2. destruct (decide (visited s1 x)) as [Hx1|Hx1].
    + rewrite Hr2 by done. auto.
    + specialize (Hnew2 x Hx1 Hx2). lia.
Qed.

Lemma frame_enter s v : ¬ visited s v → frame s (enter v s).
Proof.
  intros Hnew. split.
  - simpl. lia.
  - intros x Hx. apply visited_enter. by right.
  - intros x Hx. rewrite rank_enter, decide_False; [done|]. by intros ->.
  - intros x Hx. rewrite lowv_enter, decide_False; [done|]. by intros ->.
  - exists []. by rewrite app_nil_r.
  - intros x Hx [->|?]%visited_enter; [|done].
    by rewrite rank_enter, decide_True.
Qed.

Lemma frame_set_lowlink s0 s v l :
  ¬ visited s0 v → visited s v → frame s0 s → frame s0 (set_lowlink v l s).
Proof.
  intros Hnew Hv [Hc Hvis Hr Hl Hres Hn]. split.
  - done.
  - intros x Hx. apply visited_set_lowlink; auto.
  - intros x Hx. rewrite rank_set_lowlink. auto.
  - intros x Hx. rewrite lowv_set_lowlink, decide_False; [auto|]. by intros ->.
  - done.
  - intros x Hx0 Hx. apply visited_set_lowlink in Hx; [|done].
    rewrite rank_set_lowlink. auto.
Qed.

(** The state after the first four statements of [strongconnect]. *)
Lemma enter_inloop s0 v :
  wf s0 → v ∈ PyDict.keys graph → ¬ visited s0 v → inloop s0 v [] (enter v s0).
Proof.
  intros Hwf Hv Hnew. split.
  - by apply wf_enter.
  - by apply frame_enter.
  - done.
  - by rewrite rank_enter, decide_True.
  - exists []. split_and!; [done|by intros x ?%elem_of_nil|]. split.
    + intros x y Hx%list_elem_of_singleton _ Hy. subst x.
      specialize (Hy eq_refl). by apply elem_of_nil in Hy.
    + by intros x ->%list_elem_of_singleton.
    + by intros x ->%list_elem_of_singleton.
  - intros x Hx0 [->|?]%visited_enter; [apply rtc_refl|done].
  - by intros x y Hx0 [->|?]%visited_enter.
  - by intros y ?%elem_of_nil.
Qed.

(** A successor that is visited and no longer on the stack. *)
Lemma cross_edge s0 v done s w :
  inloop s0 v done s → visited s w → w ∉ stack s →
  inloop s0 v (done ++ [w]) s.
Proof.
  intros [Hwf Hfr Hnew Hrank (seg & Hst & Hseg0 & [He Hl Hs]) Hreach Hcomp Hdone]
         Hw Hnst.
  split; try done.
  - exists seg. split_and!; [done|done|]. split; [|done|done].
    intros x y Hx Hxy Hxv Hy. apply (He x y); [done|done| |done].
    intros ->. destruct (proj1 (elem_of_snoc _ _ _) (Hxv eq_refl)) as [?| ->]; done.
  - intros y [?|Heq%list_elem_of_singleton]%elem_of_app; [auto|by subst].
Qed.

(** A successor that is on the stack. *)
Lemma back_edge s0 v done s w :
  inloop s0 v done s → edge v w → w ∈ stack s →
  inloop s0 v (done ++ [w]) (set_lowlink v (lowv s v `min` rank s w) s).
Proof.
  intros [Hwf Hfr Hnew Hrank (seg & Hst & Hseg0 & [He Hl Hs]) Hreach Hcomp Hdone]
         Hvw Hw.
  assert (Hv : v ∈ stack s).
  { rewrite Hst. apply elem_of_app. right. left. }
  pose proof (stack_visited _ _ Hwf Hv) as Hvis.
  destruct (wf_low _ _ Hwf v Hv) as (y & Hy & Hry & Hle & Hvy).
  set (l := lowv s v `min` rank s w).
  assert (Hlle : l ≤ lowv s v) by lia.
  assert (Hlw : l ≤ rank s w) by lia.
  split.
  - apply wf_set_lowlink; [done|done|].
    destruct (Nat.min_spec (lowv s v) (rank s w)) as [[_ Hm]|[_ Hm]];
      fold l in Hm; rewrite Hm.
    + by exists y.
    + exists w. split_and!; [done|done|lia|]. by apply rtc_once.
  - by apply frame_set_lowlink.
  - done.
  - by rewrite rank_set_lowlink.
  - exists seg. simpl. split_and!; [done|done|]. split.
    + intros x y' Hx Hxy Hxv Hy'.
      rewrite lowv_set_lowlink, decide_True, rank_set_lowlink by done.
      destruct (decide (x = v ∧ y' = w)) as [[-> ->]|Hnot]; [done|].
      transitivity (lowv s v); [done|]. apply (He x y'); [done|done| |done].
      intros ->.
      destruct (proj1 (elem_of_snoc _ _ _) (Hxv eq_refl)) as [?| ->]; tauto.
    + intros x Hx. rewrite !lowv_set_lowlink, decide_True by done.
      case_decide; [done|]. specialize (Hl x Hx). lia.
    + intros x Hx Hne.
      rewrite lowv_set_lowlink, decide_False, rank_set_lowlink by done.
      by apply Hs.
  - intros x Hx0 Hx. apply visited_set_lowlink in Hx; auto.
  - intros x y' Hx0 Hx Hne Hxy. apply visited_set_lowlink; [done|].
    apply visited_set_lowlink in Hx; [|done]. eauto.
  - intros y' Hy'%elem_of_app. apply visited_set_lowlink; [done|].
    destruct Hy' as [?|Heq%list_elem_of_singleton]; [auto|].
    subst. by apply stack_visited.
Qed.

(** A successor that was not visited, after the recursive call on it. *)
Lemma after_call s0 v done sa w sb :
  inloop s0 v done sa → ¬ visited sa w → edge v w → post sa w sb →
  inloop s0 v (done ++ [w]) (set_lowlink v (lowv sb v `min` lowv sb w) sb).
Proof.
  intros [Hwfa Hfra Hnew Hranka (sega & Hsta & Hsega0 & [Hea Hla Hsa])
            Hreacha Hcompa Hdonea] Hwnew Hvw
         [Hwfb Hfrb Hrankw Hwvis Hreachb Hcompb (segw & Hstb & Hsegw0 & Hcase)].
  assert (Hva : v ∈ stack sa).
  { rewrite Hsta. apply elem_of_app. right. left. }
  assert (Hvb : v ∈ stack sb).
  { rewrite Hstb. apply elem_of_app. by right. }
  pose proof (stack_visited _ _ Hwfa Hva) as Hvisa.
  pose proof (stack_visited _ _ Hwfb Hvb) as Hvisb.
  destruct (wf_low _ _ Hwfb v Hvb) as (y & Hy & Hry & Hle & Hvy).
  assert (Hrv : rank sb v = rank sa v) by (by apply (fr_rank _ _ Hfrb)).
  assert (Hlv : lowv sb v = lowv sa v) by (by apply (fr_low _ _ Hfrb)).
  assert (Hrw_gt : rank sb v < rank sb w).
  { rewrite Hrankw, Hrv. by apply (wf_lt _ _ Hwfa). }
  set (l := lowv sb v `min` lowv sb w).
  assert (Hl_v : l ≤ lowv sb v) by lia.
  assert (Hl_w : l ≤ lowv sb w) by lia.
  assert (Hwstack : w ∈ stack sb →
            lowv sb w ≤ rank sb w ∧
            ∃ y, y ∈ stack sb ∧ rank sb y = lowv sb w ∧ reach w y).
  { intros Hw. destruct (wf_low _ _ Hwfb w Hw) as (y' & ? & ? & ? & ?). eauto. }
  assert (Hsega_stack : ∀ x, x ∈ sega ++ [v] → x ∈ stack sa).
  { intros x [?| ->]%elem_of_snoc; rewrite Hsta, elem_of_app, elem_of_cons; tauto. }
  assert (Hseg_case : ∀ x, x ∈ segw →
            lowv sb w ≤ lowv sb x ∧ lowv sb x < rank sb x ∧
            ∀ y, edge x y → y ∈ stack sb → lowv sb w ≤ rank sb y).
  { intros x Hx.
    destruct Hcase as [[-> _]|(Hlast & Hwlt & [Hew Hlw Hsw])];
      [by apply elem_of_nil in Hx|]. split_and!.
    - by apply Hlw.
    - destruct (decide (x = w)) as [->|]; [done|by apply Hsw].
    - intros y' Hxy Hy'. apply (Hew x y'); [done|done| |done]. by intros ->. }
  split.
  - apply wf_set_lowlink; [done|done|].
    destruct (Nat.min_spec (lowv sb v) (lowv sb w)) as [[_ Hm]|[Hlt Hm]];
      fold l in Hm; rewrite Hm.
    + by exists y.
    + destruct Hcase as [[-> Heq]|(Hlast & Hwlt & _)]; [lia|].
      apply last_Some_elem_of in Hlast.
      destruct Hwstack as (_ & y' & Hy' & Hry' & Hwy').
      { rewrite Hstb. apply elem_of_app. by left. }
      exists y'. split_and!; [done|done|lia|]. by eapply rtc_l.
  - apply frame_set_lowlink; [done|done|]. by eapply frame_trans.
  - done.
  - by rewrite rank_set_lowlink, Hrv.
  - exists (segw ++ sega). simpl. split_and!.
    + by rewrite Hstb, Hsta, app_assoc.
    + intros x [Hx|Hx]%elem_of_app; [|auto]. intros Hx0.
      apply (Hsegw0 x Hx). by apply (fr_visited _ _ Hfra).
    + split.
      * intros x y' Hx Hxy Hxv Hy'. simpl in Hy'.
        rewrite lowv_set_lowlink, decide_True, rank_set_lowlink by done.
        rewrite <- app_assoc in Hx. apply elem_of_app in Hx as [Hx|Hx].
        { destruct (Hseg_case x Hx) as (_ & _ & Hedge).
          specialize (Hedge y' Hxy Hy'). lia. }
        destruct (decide (x = v ∧ y' = w)) as [[-> ->]|Hnot].
        { destruct (Hwstack Hy') as [? _]. lia. }
        assert (Hxvdone : x = v → y' ∈ done).
        { intros ->.
          destruct (proj1 (elem_of_snoc _ _ _) (Hxv eq_refl)) as [?| ->]; tauto. }
        assert (Hy'a : visited sa y').
        { destruct (decide (x = v)) as [->|Hxne]; [by apply Hdonea, Hxvdone|].
          apply (Hcompa x y'); [|by apply stack_visited, Hsega_stack|done|done].
          apply Hsega0.
          apply elem_of_app in Hx as [?|Heq%list_elem_of_singleton]; [done|].
          by subst. }
        assert (Hy'st : y' ∈ stack sa).
        { rewrite Hstb in Hy'. apply elem_of_app in Hy' as [Hy'|]; [|done].
          by destruct (Hsegw0 y' Hy'). }
        rewrite (fr_rank _ _ Hfrb) by done.
        specialize (Hea x y' Hx Hxy Hxvdone Hy'st). lia.
      * intros x Hx. rewrite !lowv_set_lowlink, decide_True by done.
        case_decide; [done|].
        rewrite <- app_assoc in Hx. apply elem_of_app in Hx as [Hx|Hx].
        { destruct (Hseg_case x Hx) as (? & _ & _). lia. }
        rewrite (fr_low _ _ Hfrb) by (by apply stack_visited, Hsega_stack).
        specialize (Hla x Hx). lia.
      * intros x Hx Hne.
        rewrite lowv_set_lowlink, decide_False, rank_set_lowlink by done.
        rewrite <- app_assoc in Hx. apply elem_of_app in Hx as [Hx|Hx].
        { by destruct (Hseg_case x Hx) as (_ & ? & _). }
        rewrite (fr_low _ _ Hfrb), (fr_rank _ _ Hfrb)
          by (by apply stack_visited, Hsega_stack).
        by apply Hsa.
  - intros x Hx0 Hx. apply visited_set_lowlink in Hx; [|done].
    destruct (decide (visited sa x)) as [Hxa|Hxa]; [auto|].
    eapply rtc_l; [exact Hvw|]. by apply Hreachb.
  - intros x y' Hx0 Hx Hne Hxy. apply visited_set_lowlink; [done|].
    apply visited_set_lowlink in Hx; [|done].
    destruct (decide (visited sa x)) as [Hxa|Hxa]; [|eauto].
    apply (fr_visited _ _ Hfrb). eauto.
  - intros y' Hy'. apply visited_set_lowlink; [done|].
    apply elem_of_app in Hy' as [?|Heq%list_elem_of_singleton].
    + apply (fr_visited _ _ Hfrb). auto.
    + by subst.
Qed.

Lemma pop_component_spec v (seg rest acc : list Assignment) :
  v ∉ seg →
  pop_component v (seg ++ v :: rest) acc = Return (acc ++ seg ++ [v], rest).
Proof.
  revert acc. induction seg as [|x seg IH]; intros acc Hnin; simpl.
  - by rewrite decide_True.
  - apply not_elem_of_cons in Hnin as [Hne Hnin].
    rewrite decide_False by done. rewrite IH by done.
    by rewrite <- app_assoc.
Qed.

(** The statements after the loop: the component of a root is popped and
    appended to the result. *)
Lemma close_post s0 v done s :
  inloop s0 v done s → (∀ w, edge v w → w ∈ done) →
  ∃ s', close v s = Return s' ∧ post s0 v s'.
Proof.
  intros [Hwf Hfr Hnew Hrank (seg & Hst & Hseg0 & [He Hl Hs]) Hreach Hcomp Hdone]
         Hall.
  assert (Hv : v ∈ stack s).
  { rewrite Hst. apply elem_of_app. right. left. }
  pose proof (stack_visited _ _ Hwf Hv) as Hvis.
  destruct (wf_low _ _ Hwf v Hv) as (yv & Hyv & Hryv & Hlev & Hvyv).
  assert (Hcompl : ∀ x y, ¬ visited s0 x → visited s x → edge x y → visited s y).
  { intros x y Hx0 Hx Hxy. destruct (decide (x = v)) as [->|Hne]; [|eauto].
    apply Hdone, Hall, Hxy. }
  unfold close, getitem.
  destruct Hvis as [lv Hlv] eqn:Hvis'. rewrite Hlv.
  destruct (proj1 (wf_dom _ _ Hwf v) Hvis) as [iv Hiv]. rewrite Hiv. simpl.
  assert (Hlowv : lowv s v = lv) by (unfold lowv; by rewrite Hlv).
  assert (Hrankv : rank s v = iv) by (unfold rank; by rewrite Hiv).
  clear Hvis'.
  destruct (decide (lv = iv)) as [Heq|Hneq].
  - assert (Hnin : v ∉ seg).
    { pose proof (wf_nodup _ _ Hwf) as Hnd. rewrite Hst in Hnd.
      apply NoDup_app in Hnd as [Hnd _].
      apply NoDup_app in Hnd as (_ & Hdisj & _).
      intros Hin. apply (Hdisj _ Hin). left. }
    rewrite Hst, pop_component_spec by done. simpl.
    eexists. split; [done|].
    set (comp := seg ++ [v]).
    assert (Hcomp_new : ∀ x, x ∈ comp → ¬ visited s0 x).
    { intros x [?| ->]%elem_of_snoc; auto. }
    assert (Hcomp_stack : ∀ x, x ∈ comp → x ∈ stack s).
    { intros x [?| ->]%elem_of_snoc; rewrite Hst, elem_of_app, elem_of_cons; tauto. }
    assert (Hcomp_rank : ∀ x, x ∈ comp → rank s v ≤ rank s x).
    { intros x Hx. destruct (decide (x = v)) as [->|Hne]; [done|].
      rewrite Hrank. apply (fr_new _ _ Hfr); [by apply Hcomp_new|].
      by apply stack_visited, Hcomp_stack. }
    assert (Hold_rank : ∀ x, x ∈ stack s0 → rank s x < rank s v).
    { pose proof (wf_sorted _ _ Hwf) as Hsorted. rewrite Hst in Hsorted.
      apply StronglySorted_app_1_r, StronglySorted_inv in Hsorted as [_ Hall'].
      by apply Forall_forall. }
    assert (Hsplit : ∀ x, x ∈ stack s → x ∈ comp ∨ x ∈ stack s0).
    { intros x. rewrite Hst. unfold comp.
      rewrite elem_of_snoc, elem_of_app, elem_of_cons. tauto. }
    assert (Hin_comp : ∀ x, x ∈ stack s → rank s v ≤ rank s x → x ∈ comp).
    { intros x Hx Hle. destruct (Hsplit x Hx) as [?|Hx0]; [done|].
      specialize (Hold_rank x Hx0). lia. }
    assert (Hto_v : ∀ n x, rank s x ≤ n → x ∈ comp → reach x v).
    { induction n as [|n IHn]; intros x Hn Hx;
        (destruct (decide (x = v)) as [->|Hne]; [apply rtc_refl|]);
        specialize (Hs x Hx Hne); [lia|].
      destruct (wf_low _ _ Hwf x (Hcomp_stack x Hx)) as (y & Hy & Hry & Hle & Hxy).
      specialize (Hl x Hx).
      etrans; [exact Hxy|]. apply IHn; [lia|]. apply Hin_comp; [done|]. lia. }
    pose proof Hwf as
      [Hdom Hkeys Hlt Hinj Hsorted Hpart Hnodup Hlow Hord Hscc Hne].
    split.
    + split; simpl.
      * done.
      * done.
      * done.
      * done.
      * rewrite Hst in Hsorted.
        by apply StronglySorted_app_1_r, StronglySorted_inv in Hsorted as [? _].
      * intros x. change (visited _ x) with (visited s x).
        rewrite Hpart, join_app, Hst. simpl. rewrite app_nil_r.
        fold comp. rewrite !elem_of_app, elem_of_cons. unfold comp.
        rewrite elem_of_snoc. tauto.
      * rewrite join_app. simpl. rewrite app_nil_r.
        rewrite Hst in Hnodup.
        rewrite (assoc_L (++) (stack s0)).
        rewrite (Permutation_app_comm (stack s0 ++ _) comp).
        unfold comp. rewrite <- !(assoc_L (++)).
        by rewrite <- (assoc_L (++)) in Hnodup.
      * intros x Hx.
        assert (Hxs : x ∈ stack s).
        { rewrite Hst, elem_of_app, elem_of_cons. tauto. }
        destruct (Hlow x Hxs) as (y & Hy & Hry & Hle & Hxy).
        exists y. split_and!; [|done..].
        destruct (Hsplit y Hy) as [Hyc|?]; [|done].
        specialize (Hcomp_rank y Hyc). specialize (Hold_rank x Hx).
        change (rank _ ?z) with (rank s z) in *.
        change (lowv _ ?z) with (lowv s z) in *. lia.
      * intros i comp' x y Hi Hx Hxy.
        destruct (decide (i < length (result_ s))) as [Hlt'|Hge].
        { rewrite lookup_app_l in Hi by done.
          destruct (Hord i comp' x y Hi Hx Hxy) as (j & c' & Hj & Hjc & Hyc).
          exists j, c'. split_and!; [done| |done].
          rewrite lookup_app_l; [done|]. by eapply lookup_lt_Some. }
        rewrite lookup_app_r in Hi by lia.
        destruct (i - length (result_ s)) as [|k] eqn:Hk; [|done].
        injection Hi as <-. assert (i = length (result_ s)) as -> by lia.
        assert (Hyvis : visited s y).
        { apply (Hcompl x y); [by apply Hcomp_new| |done].
          by apply stack_visited, Hcomp_stack. }
        apply Hpart in Hyvis as [Hys|Hyr].
        -- exists (length (result_ s)), comp. split_and!; [done| |].
           ++ by rewrite lookup_app_r, Nat.sub_diag by lia.
           ++ apply Hin_comp; [done|]. rewrite <- Hryv in Hlowv.
              assert (lowv s v ≤ rank s y); [|lia].
              apply (He x y); [done|done| |done]. intros ->. by apply Hall.
        -- apply list_elem_of_join in Hyr as (c' & Hyc & Hc').
           apply list_elem_of_lookup in Hc' as [j Hj].
           exists j, c'. pose proof (lookup_lt_Some _ _ _ Hj).
           split_and!; [lia| |done]. by rewrite lookup_app_l.
      * intros comp' x y [Hc|Hc%list_elem_of_singleton]%elem_of_app Hx Hy.
        { by eapply Hscc. }
        subst comp'. etrans; [by eapply (Hto_v (rank s x))|].
        apply Hreach; [by apply Hcomp_new|by apply stack_visited, Hcomp_stack].
      * intros comp' [Hc|Hc%list_elem_of_singleton]%elem_of_app; [auto|].
        subst comp'. unfold comp. by destruct seg.
    + destruct Hfr as [Hc Hv' Hr Hl' [new Hres] Hn]. split; try done.
      exists (new ++ [comp]). simpl. by rewrite Hres, app_assoc.
    + done.
    + unfold visited. simpl. by rewrite Hlv.
    + done.
    + done.
    + exists []. split_and!; [done|by intros x ?%elem_of_nil|]. left.
      split; [done|]. change (lowv _ v = rank _ v) with (lowv s v = rank s v). lia.
  - exists s. split; [done|]. split.
    + done.
    + done.
    + done.
    + unfold visited. by rewrite Hlv.
    + done.
    + done.
    + exists (seg ++ [v]). split_and!.
      * by rewrite Hst, <- app_assoc.
      * intros x [?| ->]%elem_of_snoc; auto.
      * right. split_and!; [apply last_snoc|lia|].
        split; [|done|done].
        intros x y Hx Hxy _ Hy. apply (He x y); [done|done| |done].
        intros ->. by apply Hall.
Qed.

(** Visiting lowers the number of nodes that are left to visit. *)
Lemma unvisited_mono s s' k :
  (∀ x, visited s x → visited s' x) →
  lowlinks s' !! k = None → lowlinks s !! k = None.
Proof.
  intros Hmono Hk'. destruct (lowlinks s !! k) as [l|] eqn:Hk; [|done].
  destruct (Hmono k) as [l' Hl']; [by eexists|]. congruence.
Qed.

Lemma filter_unvisited_le s s' (ks : list Assignment) :
  (∀ x, visited s x → visited s' x) →
  length (filter (λ k, lowlinks s' !! k = None) ks)
  ≤ length (filter (λ k, lowlinks s !! k = None) ks).
Proof.
  intros Hmono. induction ks as [|k ks IH]; [done|]. rewrite !filter_cons.
  pose proof (unvisited_mono s s' k Hmono) as Hk.
  destruct (decide (lowlinks s' !! k = None));
    destruct (decide (lowlinks s !! k = None)); simpl; try lia. tauto.
Qed.

Lemma filter_unvisited_lt s s' (ks : list Assignment) v :
  (∀ x, visited s x → visited s' x) →
  v ∈ ks → ¬ visited s v → visited s' v →
  length (filter (λ k, lowlinks s' !! k = None) ks)
  < length (filter (λ k, lowlinks s !! k = None) ks).
Proof.
  intros Hmono Hv Hnew Hvis. induction ks as [|k ks IH];
    [by apply elem_of_nil in Hv|].
  pose proof (filter_unvisited_le s s' ks Hmono) as Hle.
  rewrite !filter_cons.
  pose proof (unvisited_mono s s' k Hmono) as Hk.
  apply elem_of_cons in Hv as [<-|Hv].
  - rewrite (decide_True (P := lowlinks s !! v = None)).
    2:{ by apply eq_None_not_Some. }
    rewrite (decide_False (P := lowlinks s' !! v = None)).
    2:{ destruct Hvis as [? Hvis]. by rewrite Hvis. }
    simpl. lia.
  - specialize (IH Hv).
    destruct (decide (lowlinks s' !! k = None));
      destruct (decide (lowlinks s !! k = None)); simpl; try lia. tauto.
Qed.

Lemma unvisited_lt s s' v :
  (∀ x, visited s x → visited s' x) →
  v ∈ PyDict.keys graph → ¬ visited s v → visited s' v →
  length (unvisited graph s') < length (unvisited graph s).
Proof. apply filter_unvisited_lt. Qed.

(** The body of the loop over the successors, when the recursive call
    meets its specification. *)
Lemma visit_spec fuel s0 v done s w :
  (∀ v s0, wf s0 → v ∈ PyDict.keys graph → ¬ visited s0 v →
           length (unvisited graph s0) ≤ fuel →
           ∃ s', strongconnect fuel graph v s0 = Return s' ∧ post s0 v s') →
  length (unvisited graph s0) ≤ S fuel →
  inloop s0 v done s → edge v w →
  ∃ s', visit (strongconnect fuel graph) v w s = Return s' ∧
        inloop s0 v (done ++ [w]) s'.
Proof.
  intros IH Hfuel Hin Hvw. unfold visit.
  pose proof (il_wf _ _ _ _ _ Hin) as Hwf.
  assert (Hv : v ∈ stack s).
  { destruct (il_stack _ _ _ _ _ Hin) as (seg & -> & _).
    apply elem_of_app. right. left. }
  pose proof (stack_visited _ _ Hwf Hv) as Hvis.
  assert (Hget : ∀ s' x, visited s' x →
            getitem (lowlinks s') x = Return (lowv s' x)).
  { intros s' x [l Hl]. unfold getitem, lowv. by rewrite Hl. }
  destruct (lowlinks s !! w) as [lw|] eqn:Ew.
  - assert (Hw : visited s w) by (by eexists).
    destruct (decide (w ∈ stack s)) as [Hst|Hnst].
    + rewrite (Hget s v), bind_Return by done. cbv beta.
      destruct (proj1 (wf_dom _ _ Hwf w) Hw) as [iw Hiw].
      unfold getitem. rewrite Hiw, bind_Return. cbv beta.
      replace iw with (rank s w) by (unfold rank; by rewrite Hiw).
      eexists. split; [done|]. by apply back_edge.
    + eexists. split; [done|]. by apply cross_edge.
  - assert (Hw : ¬ visited s w) by (by apply eq_None_not_Some).
    destruct (IH w s) as (sb & -> & Hpost); [done|by eapply graph_closed|done| |].
    { assert (length (unvisited graph s) < length (unvisited graph s0)); [|lia].
      apply (unvisited_lt _ _ v).
      - apply (fr_visited _ _ (il_frame _ _ _ _ _ Hin)).
      - by apply (wf_keys _ _ Hwf).
      - apply (il_new _ _ _ _ _ Hin).
      - done. }
    rewrite bind_Return. cbv beta. rewrite (Hget sb v).
    2:{ by apply (fr_visited _ _ (po_frame _ _ _ _ Hpost)). }
    rewrite bind_Return. cbv beta.
    rewrite (Hget sb w) by apply (po_visited _ _ _ _ Hpost).
    rewrite bind_Return. cbv beta.
    eexists. split; [done|]. by apply (after_call s0 v done s w sb).
Qed.

(** [strongconnect] returns, and meets its specification. *)
Lemma strongconnect_spec fuel : ∀ v s0,
  wf s0 → v ∈ PyDict.keys graph → ¬ visited s0 v →
  length (unvisited graph s0) ≤ fuel →
  ∃ s', strongconnect fuel graph v s0 = Return s' ∧ post s0 v s'.
Proof.
  induction fuel as [|fuel IH]; intros v s0 Hwf Hv Hnew Hfuel.
  - exfalso.
    assert (Hin : v ∈ unvisited graph s0).
    { apply list_elem_of_filter. split; [by apply eq_None_not_Some|done]. }
    destruct (unvisited graph s0); [by apply elem_of_nil in Hin|simpl in *; lia].
  - cbn [strongconnect].
    assert (Hloop : ∀ todo done s,
              inloop s0 v done s → (∀ w, w ∈ todo → edge v w) →
              ∃ s', for_each (visit (strongconnect fuel graph) v) todo s = Return s' ∧
                    inloop s0 v (done ++ todo) s').
    { induction todo as [|w todo IHt]; intros done s Hin Hedges; cbn [for_each].
      - exists s. by rewrite app_nil_r.
      - destruct (visit_spec fuel s0 v done s w IH Hfuel Hin) as (s1 & -> & Hin1).
        { apply Hedges. left. }
        destruct (IHt (done ++ [w]) s1 Hin1) as (s2 & Hs2 & Hin2).
        { intros w' Hw'. apply Hedges. by right. }
        exists s2. rewrite <- app_assoc in Hin2. done. }
    destruct (Hloop (successors graph v) [] (enter v s0)) as (s1 & -> & Hin1).
    { by apply enter_inloop. }
    { done. }
    apply (close_post _ _ _ _ Hin1). done.
Qed.

(** The loop over the nodes of the graph: between two iterations the
    stack is empty. *)
Lemma visit_root_spec fuel s v :
  wf s → stack s = [] → v ∈ PyDict.keys graph →
  length (PyDict.keys graph) ≤ fuel →
  ∃ s', visit_root fuel graph v s = Return s' ∧ wf s' ∧ stack s' = [] ∧
        visited s' v ∧ ∀ x, visited s x → visited s' x.
Proof.
  intros Hwf Hst Hv Hfuel. unfold visit_root.
  destruct (lowlinks s !! v) as [l|] eqn:E.
  - exists s. split_and!; [done..|by eexists|done].
  - destruct (strongconnect_spec fuel v s) as (s' & -> & Hpost);
      [done|done|by apply eq_None_not_Some| |].
    { etrans; [|exact Hfuel]. apply length_filter. }
    exists s'. destruct Hpost as [Hwf' Hfr Hrank Hvis _ _ (seg & Hst' & Hseg0 & Hcase)].
    split_and!; [done|done| |done|apply (fr_visited _ _ Hfr)].
    rewrite Hst, app_nil_r in Hst'.
    destruct Hcase as [[-> _]|(Hlast & Hlt & _)]; [done|]. exfalso.
    apply last_Some_elem_of in Hlast.
    destruct (wf_low _ _ Hwf' v) as (y & Hy & Hry & _); [by rewrite Hst'|].
    rewrite Hst' in Hy.
    pose proof (fr_new _ _ Hfr y (Hseg0 y Hy)) as Hnew.
    rewrite Hrank in Hlt. specialize (Hnew (stack_visited _ _ Hwf' ltac:(by rewrite Hst'))).
    lia.
Qed.

Lemma wf_initial : wf initial.
Proof.
  assert (Hnone : ∀ x, ¬ visited initial x).
  { intros x [? Hx]. unfold initial in Hx. cbn in Hx.
    by rewrite (lookup_empty (M := gmap Assignment)) in Hx. }
  split.
  - intros x. split; [by intros ?%Hnone|].
    intros [? Hx]. unfold initial in Hx. cbn in Hx.
    by rewrite (lookup_empty (M := gmap Assignment)) in Hx.
  - by intros x ?%Hnone.
  - by intros x ?%Hnone.
  - by intros x y ?%Hnone.
  - constructor.
  - intros x. split; [by intros ?%Hnone|]. by intros [?%elem_of_nil|?%elem_of_nil].
  - constructor.
  - by intros x ?%elem_of_nil.
  - intros i comp x y Hi. unfold initial in Hi. cbn in Hi. by destruct i.
  - by intros comp x y ?%elem_of_nil.
  - by intros comp ?%elem_of_nil.
Qed.

(** The whole loop of [dependency_sort] over the keys of the graph. *)
Lemma roots_spec fuel (nodes : list Assignment) : ∀ s,
  wf s → stack s = [] → (∀ x, x ∈ nodes → x ∈ PyDict.keys graph) →
  length (PyDict.keys graph) ≤ fuel →
  ∃ s', for_each (visit_root fuel graph) nodes s = Return s' ∧
        wf s' ∧ stack s' = [] ∧
        (∀ x, x ∈ nodes → visited s' x) ∧ (∀ x, visited s x → visited s' x).
Proof.
  induction nodes as [|v nodes IH]; intros s Hwf Hst Hnodes Hfuel; cbn [for_each].
  - exists s. split_and!; [done..|by intros x ?%elem_of_nil|done].
  - destruct (visit_root_spec fuel s v) as (s1 & -> & Hwf1 & Hst1 & Hv1 & Hmono1);
      [done|done|apply Hnodes; left|done|].
    destruct (IH s1) as (s2 & Hs2 & Hwf2 & Hst2 & Hall2 & Hmono2);
      [done|done|intros x Hx; apply Hnodes; by right|done|].
    exists s2. split_and!; [done..| |by auto].
    intros x [->|Hx]%elem_of_cons; auto.
Qed.

End tarjan_facts.

(** ** The graph of [dependency_sort] *)

Section graph_facts.
Context {seed : Hashing}.
Variable l : list Assignment.

Lemma tarjan_graph_keys x : x ∈ PyDict.keys (Tarjan.build_graph l) ↔ x ∈ l.
Proof.
  unfold Tarjan.build_graph. rewrite keys_of_pairs, <- list_fmap_compose.
  by rewrite list_fmap_id.
Qed.

Lemma tarjan_graph_get a :
  a ∈ l →
  PyDict.get a (Tarjan.build_graph l)
  = Some (Tarjan.resolve (Tarjan.assignments_by_name l) (references a)).
Proof.
  intros Ha. apply tarjan_graph_keys, get_is_Some in Ha as [v Hv].
  rewrite Hv. f_equal.
  apply get_Some_elem, elem_of_pairs, list_elem_of_fmap in Hv as (a' & Heq & _).
  by injection Heq as -> ->.
Qed.

Lemma tarjan_edge_depends a b :
  Tarjan.edge (Tarjan.build_graph l) a b ↔ Tarjan.depends l a b.
Proof.
  unfold Tarjan.edge, Tarjan.successors, Tarjan.depends. split.
  - intros Hb. destruct (decide (a ∈ l)) as [Ha|Ha].
    + rewrite tarjan_graph_get in Hb by done. simpl in Hb.
      split; [done|]. unfold Tarjan.resolve in Hb.
      apply list_elem_of_omap in Hb as (r & Hr & Hget).
      exists r. by rewrite <- iter_elem.
    + rewrite <- tarjan_graph_keys in Ha. apply get_None in Ha.
      rewrite Ha in Hb. by apply elem_of_nil in Hb.
  - intros (Ha & r & Hr & Hget). rewrite tarjan_graph_get by done. simpl.
    unfold Tarjan.resolve. apply list_elem_of_omap. exists r.
    by rewrite iter_elem.
Qed.

Lemma depends_in a b : Tarjan.depends l a b → b ∈ l.
Proof.
  intros (_ & r & _ & Hget).
  apply get_Some_elem, elem_of_pairs, list_elem_of_fmap in Hget
    as (b' & Heq & Hb').
  by injection Heq as _ ->.
Qed.

Lemma tarjan_graph_closed x y :
  Tarjan.edge (Tarjan.build_graph l) x y → y ∈ PyDict.keys (Tarjan.build_graph l).
Proof. intros ?%tarjan_edge_depends%depends_in. by apply tarjan_graph_keys. Qed.

Lemma reach_depends a b :
  Tarjan.reach (Tarjan.build_graph l) a b ↔ rtc (Tarjan.depends l) a b.
Proof.
  split; apply rtc_subrel; intros x y; apply tarjan_edge_depends.
Qed.

(** [dependency_sort] returns the result of a state that satisfies the
    invariant, with an empty stack and every assignment visited. *)
Lemma dependency_sort_state :
  ∃ s, Tarjan.dependency_sort l = Return (Tarjan.result_ s) ∧
       Tarjan.wf (Tarjan.build_graph l) s ∧ Tarjan.stack s = [] ∧
       ∀ x, x ∈ l → Tarjan.visited s x.
Proof.
  unfold Tarjan.dependency_sort.
  destruct (roots_spec (Tarjan.build_graph l) tarjan_graph_closed
              (length (Tarjan.build_graph l))
              (PyDict.keys (Tarjan.build_graph l)) Tarjan.initial)
    as (s & -> & Hwf & Hst & Hall & _).
  - apply wf_initial.
  - done.
  - done.
  - unfold PyDict.keys. by rewrite length_fmap.
  - exists s. split_and!; [done..|]. intros x Hx. by apply Hall, tarjan_graph_keys.
Qed.

(** The members of the result are the assignments, each once. *)
Lemma dependency_sort_members s :
  Tarjan.wf (Tarjan.build_graph l) s → Tarjan.stack s = [] →
  (∀ x, x ∈ l → Tarjan.visited s x) →
  NoDup (mjoin (Tarjan.result_ s)) ∧
  ∀ a, a ∈ mjoin (Tarjan.result_ s) ↔ a ∈ l.
Proof.
  intros Hwf Hst Hall. split.
  - pose proof (Tarjan.wf_nodup _ _ Hwf) as Hnd. by rewrite Hst in Hnd.
  - intros a. split.
    + intros Ha. apply tarjan_graph_keys, (Tarjan.wf_keys _ _ Hwf).
      apply (Tarjan.wf_part _ _ Hwf). by right.
    + intros Ha. apply Hall, (Tarjan.wf_part _ _ Hwf) in Ha as [Ha|Ha]; [|done].
      rewrite Hst in Ha. by apply elem_of_nil in Ha.
Qed.

(** What is reached from a member of a component lies in that component
    or in an earlier one. *)
Lemma reach_earlier s a b :
  Tarjan.wf (Tarjan.build_graph l) s →
  Tarjan.reach (Tarjan.build_graph l) a b →
  ∀ i comp, Tarjan.result_ s !! i = Some comp → a ∈ comp →
  ∃ j comp', j ≤ i ∧ Tarjan.result_ s !! j = Some comp' ∧ b ∈ comp'.
Proof.
  intros Hwf Hreach. induction Hreach as [a|a a' b Hedge _ IH]; intros i comp Hi Ha.
  - by exists i, comp.
  - destruct (Tarjan.wf_order _ _ Hwf i comp a a' Hi Ha Hedge)
      as (j1 & c1 & Hj1 & Hc1 & Ha').
    destruct (IH j1 c1 Hc1 Ha') as (j & c & Hj & Hc & Hb).
    exists j, c. split_and!; [lia|done..].
Qed.

End graph_facts.

(** The sort depends on the order of the sets of references only. *)
Lemma build_graph_small (seed seed' : Hashing) (l : list Assignment) :
  Forall (λ a, size (references a) ≤ 1) l →
  Tarjan.build_graph (seed := seed) l = Tarjan.build_graph (seed := seed') l.
Proof.
  intros Hl. unfold Tarjan.build_graph. f_equal. apply list_fmap_ext.
  intros i a Ha. f_equal. unfold Tarjan.resolve. f_equal.
  apply iter_small. apply (proj1 (Forall_forall _ _) Hl).
  by eapply list_elem_of_lookup_2.
Qed.

Lemma dependency_sort_small (seed seed' : Hashing) (l : list Assignment) :
  Forall (λ a, size (references a) ≤ 1) l →
  Tarjan.dependency_sort (seed := seed) l = Tarjan.dependency_sort (seed := seed') l.
Proof.
  intros Hl. unfold Tarjan.dependency_sort.
  by rewrite (build_graph_small seed seed').
Qed.

(** Components whose concatenation has no duplicates are disjoint. *)
Lemma join_disjoint {A} (ls : list (list A)) i j c c' x :
  NoDup (mjoin ls) → ls !! i = Some c → ls !! j = Some c' →
  x ∈ c → x ∈ c' → i = j.
Proof.
  revert i j. induction ls as [|l0 ls IH]; intros i j Hnd Hi Hj Hx Hx'; [done|].
  simpl in Hnd. apply NoDup_app in Hnd as (_ & Hdisj & Hnd).
  assert (Hin : ∀ k c0, ls !! k = Some c0 → x ∈ c0 → x ∈ mjoin ls).
  { intros k c0 Hk Hc0. apply list_elem_of_join. exists c0.
    split; [done|]. by eapply list_elem_of_lookup_2. }
  destruct i as [|i], j as [|j]; simpl in *.
  - done.
  - injection Hi as <-. destruct (Hdisj x Hx). by eapply Hin.
  - injection Hj as <-. destruct (Hdisj x Hx'). by eapply Hin.
  - f_equal. by eapply IH.
Qed.

(** An example whose sets of references have at most one element is
    evaluated in one order. *)
Ltac small_sets :=
  lazymatch goal with
  | |- context [@Tarjan.dependency_sort ?seed ?l] =>
      rewrite (dependency_sort_small seed by_elements l)
  | |- context [@Tarjan.build_graph ?seed ?l] =>
      rewrite (build_graph_small seed by_elements l)
  end;
  [by vm_compute|apply (bool_decide_unpack _); by vm_compute].

(** C3. On every input, [dependency_sort] returns: it raises nothing and
    its recursion stays within the fuel that the number of assignments
    gives it.  The components put end to end have no duplicates and hold
    the input assignments and nothing else, so they are a permutation of
    an input of distinct assignments.  A self-referential assignment
    alone and two assignments that refer to each other are sorted like any
    input, and a reference to an undefined name makes no edge. *)
Theorem dependency_sort_permutation {seed : Hashing} :
  (∀ l : list Assignment,
     ∃ comps, Tarjan.dependency_sort l = Return comps ∧
              NoDup (mjoin comps) ∧
              (∀ a, a ∈ mjoin comps ↔ a ∈ l) ∧
              (NoDup l → mjoin comps ≡ₚ l)) ∧
  Tarjan.dependency_sort [Ex.selfA] = Return [[Ex.selfA]] ∧
  Tarjan.dependency_sort [Ex.aD; Ex.aE] = Return [[Ex.aE; Ex.aD]] ∧
  Tarjan.build_graph [Ex.lonely] = [(Ex.lonely, [])] ∧
  Tarjan.dependency_sort [Ex.lonely] = Return [[Ex.lonely]].
Proof.
  split_and!; [|small_sets..].
  intros l. destruct (dependency_sort_state l) as (s & Hs & Hwf & Hst & Hall).
  destruct (dependency_sort_members l s Hwf Hst Hall) as [Hnd Hmem].
  exists (Tarjan.result_ s). split_and!; [done..|].
  intros Hl. by apply NoDup_Permutation.
Qed.

Lemma dependency_sort_permutation_witness :
  ∃ comps, Tarjan.dependency_sort (seed := by_elements) [Ex.aC; Ex.aB; Ex.aA]
             = Return comps ∧
           mjoin comps ≡ₚ [Ex.aC; Ex.aB; Ex.aA].
Proof.
  destruct (proj1 (dependency_sort_permutation (seed := by_elements))
              [Ex.aC; Ex.aB; Ex.aA])
    as (comps & Hret & _ & _ & Hperm).
  exists comps. split; [exact Hret|]. apply Hperm.
  apply (bool_decide_unpack _). by vm_compute.
Defined.

(** C2. [dependency_sort] returns a sequence of non-empty components in
    dependency order: whatever a member of a component depends on, in one
    step or in several, is a member of the same component or of a
    component that stands strictly earlier in the sequence. *)
Theorem dependency_sort_order {seed : Hashing} (l : list Assignment) :
  ∃ comps, Tarjan.dependency_sort l = Return comps ∧
    (∀ comp, comp ∈ comps → comp ≠ []) ∧
    ∀ i comp a b,
      comps !! i = Some comp → a ∈ comp →
      rtc (Tarjan.depends l) a b → b ∉ comp →
      ∃ j comp', j < i ∧ comps !! j = Some comp' ∧ b ∈ comp'.
Proof.
  destruct (dependency_sort_state l) as (s & Hs & Hwf & Hst & Hall).
  exists (Tarjan.result_ s). split_and!; [done|apply (Tarjan.wf_nonempty _ _ Hwf)|].
  intros i comp a b Hi Ha Hab Hb.
  apply reach_depends in Hab.
  destruct (reach_earlier l s a b Hwf Hab i comp Hi Ha) as (j & c & Hj & Hc & Hbc).
  exists j, c. split_and!; [|done..].
  destruct (decide (j = i)) as [->|]; [|lia]. congruence.
Qed.

(** C5. The components [dependency_sort] returns are the classes of
    mutual dependency: the members of a component are exactly the
    assignments that a member reaches and that reach it back.  So a
    component has more than one member if and only if a member lies on a
    cycle with another assignment.  A component of one member may be a
    self-referential assignment or one without any reference. *)
Theorem dependency_sort_components {seed : Hashing} :
  (∀ l : list Assignment,
     ∃ comps, Tarjan.dependency_sort l = Return comps ∧
       ∀ comp, comp ∈ comps →
         (∀ a b, a ∈ comp →
            (b ∈ comp ↔
             rtc (Tarjan.depends l) a b ∧ rtc (Tarjan.depends l) b a)) ∧
         (1 < length comp ↔
          ∃ a b, a ∈ comp ∧ a ≠ b ∧
                 rtc (Tarjan.depends l) a b ∧ rtc (Tarjan.depends l) b a)) ∧
  (Tarjan.dependency_sort [Ex.selfA] = Return [[Ex.selfA]] ∧
   Tarjan.depends [Ex.selfA] Ex.selfA Ex.selfA) ∧
  (Tarjan.dependency_sort [Ex.aB] = Return [[Ex.aB]] ∧
   ¬ Tarjan.depends [Ex.aB] Ex.aB Ex.aB).
Proof.
  split_and!.
  - intros l. destruct (dependency_sort_state l) as (s & Hs & Hwf & Hst & Hall).
    destruct (dependency_sort_members l s Hwf Hst Hall) as [Hnd Hmem].
    exists (Tarjan.result_ s). split; [done|]. intros comp Hcomp.
    apply list_elem_of_lookup in Hcomp as [i Hi].
    assert (Hclass : ∀ a b, a ∈ comp →
              (b ∈ comp ↔
               rtc (Tarjan.depends l) a b ∧ rtc (Tarjan.depends l) b a)).
    { intros a b Ha. rewrite <- !reach_depends. split.
      - intros Hb. split; eapply (Tarjan.wf_scc _ _ Hwf);
          eauto using list_elem_of_lookup_2.
      - intros [Hab Hba].
        destruct (reach_earlier l s a b Hwf Hab i comp Hi Ha)
          as (j & c & Hj & Hc & Hbc).
        destruct (reach_earlier l s b a Hwf Hba j c Hc Hbc)
          as (i' & c' & Hi' & Hc' & Hac).
        assert (i' = i) as -> by (by eapply (join_disjoint _ i' i c' comp a)).
        assert (j = i) as -> by lia. congruence. }
    split; [done|]. split.
    + intros Hlen. destruct comp as [|a [|b comp]]; simpl in Hlen; [lia|lia|].
      exists a, b. assert (Hne : a ≠ b).
      { intros ->. assert (Hsub : NoDup (b :: b :: comp)).
        { clear -Hnd Hi. revert i Hi.
          induction (Tarjan.result_ s) as [|c cs IH]; intros i Hi; [done|].
          simpl in Hnd. apply NoDup_app in Hnd as (Hc & _ & Hcs).
          destruct i as [|i]; simpl in Hi; [by injection Hi as ->|eauto]. }
        apply NoDup_cons in Hsub as [Hin _]. apply Hin. left. }
      destruct (proj1 (Hclass a b ltac:(left)) ltac:(right; left)) as [Hab Hba].
      split_and!; try done. left.
    + intros (a & b & Ha & Hne & Hab & Hba).
      assert (Hb : b ∈ comp) by (by apply (Hclass a b Ha)).
      destruct comp as [|x [|y comp]]; simpl; [|exfalso|lia].
      * by apply elem_of_nil in Ha.
      * apply list_elem_of_singleton in Ha, Hb. congruence.
  - small_sets.
  - split; [left|]. exists "A". split; [|by vm_compute].
    apply (bool_decide_unpack _). by vm_compute.
  - small_sets.
  - intros (_ & r & Hr & _). by apply not_elem_of_empty in Hr.
Qed.

(** * The node model: construction and rendering *)

Section sema_facts.

Lemma St_bind_Return {S A B} (m : St S A) (f : A → St S B) s b s' :
  (m ≫= f) s = (Return b, s') →
  ∃ a s1, m s = (Return a, s1) ∧ f a s1 = (Return b, s').
Proof.
  unfold mbind, St_bind. destruct (m s) as [[a| |] s1]; try done. eauto.
Qed.

Lemma lift_Return {S A} (r : result A) (s s' : S) a :
  lift r s = (Return a, s') → r = Return a ∧ s' = s.
Proof. unfold lift. by intros [= -> ->]. Qed.

End sema_facts.

(** C8. The implicit flag of a constructed TaggedType is true exactly when
    the second element, the one before the type declaration, is the
    literal string IMPLICIT; with EXPLICIT there, or with the type
    declaration directly after the tag, it is false. *)
Theorem TaggedType_implicit_flag
    (create : Elem → M SemaNode) (elements : list Elem) (c c' : nat)
    (n : SemaNode) :
  TaggedType__init__ create elements c = (Return n, c') →
  ∃ class_name class_number implicit type_token type_decl c0,
    n = TaggedType class_name class_number implicit type_decl ∧
    (implicit = true ↔ elements !! 1 = Some (Str "IMPLICIT")) ∧
    create type_token c0 = (Return type_decl, c') ∧
    (elements !! 1 = Some type_token ∧ Py.is_token type_token = true ∨
     ∃ literal, elements !! 1 = Some literal ∧ Py.is_token literal = false ∧
                elements !! 2 = Some type_token).
Proof.
  unfold TaggedType__init__. intros H.
  apply St_bind_Return in H as (tag_token & s1 & H0 & H).
  apply lift_Return in H0 as [H0 ->].
  apply St_bind_Return in H as (e1 & s1 & H1 & H).
  apply lift_Return in H1 as [H1 ->].
  unfold Py.item in H0, H1.
  destruct (elements !! 1) as [e1'|] eqn:E1; simplify_eq.
  apply St_bind_Return in H as ([implicit type_token] & s1 & H2 & H).
  apply St_bind_Return in H as (tag_els & s2 & H3 & H).
  apply lift_Return in H3 as [H3 ->].
  apply St_bind_Return in H as ([class_name class_number] & s3 & H4 & H).
  apply lift_Return in H4 as [H4 ->].
  apply St_bind_Return in H as (type_decl & s4 & H5 & H).
  injection H as <- <-.
  exists class_name, class_number, implicit, type_token, type_decl, s1.
  destruct (Py.is_token e1) eqn:Etok.
  - injection H2 as <- <- <-. split_and!; [done| |done|by left].
    split; [done|]. by intros [= ->].
  - apply St_bind_Return in H2 as (t2 & s5 & H6 & H2).
    apply lift_Return in H6 as [H6 ->]. injection H2 as <- <- <-.
    unfold Py.item in H6. destruct (elements !! 2) as [e2|] eqn:E2; simplify_eq.
    split_and!; [done| |done|right; eauto].
    unfold Py.eq_str. destruct e1; try done.
    rewrite bool_decide_eq_true. split; [by intros ->|by intros [= ->]].
Qed.

Lemma TaggedType_implicit_flag_witness :
  ∃ class_name class_number implicit type_token type_decl c0,
    TaggedType None (Some (Str "2")) true (SimpleType None (Str "INTEGER"))
      = TaggedType class_name class_number implicit type_decl ∧
    (implicit = true ↔
       [Ex.tag2; Str "IMPLICIT"; Ex.tINTEGER] !! 1 = Some (Str "IMPLICIT")) ∧
    _create_sema_node 2 type_token c0 = (Return type_decl, 0) ∧
    ([Ex.tag2; Str "IMPLICIT"; Ex.tINTEGER] !! 1 = Some type_token ∧
       Py.is_token type_token = true ∨
     ∃ literal,
       [Ex.tag2; Str "IMPLICIT"; Ex.tINTEGER] !! 1 = Some literal ∧
       Py.is_token literal = false ∧
       [Ex.tag2; Str "IMPLICIT"; Ex.tINTEGER] !! 2 = Some type_token).
Proof.
  exact (TaggedType_implicit_flag (_create_sema_node 2)
           [Ex.tag2; Str "IMPLICIT"; Ex.tINTEGER] 0 0 _ eq_refl).
Defined.

(** [numbered] at [idx] reads the list up to [idx] only. *)
Lemma numbered_stable (cur out : list SemaNode) (idx : nat) (n : SemaNode) :
  (∀ i, i ≤ idx → out !! i = cur !! i) →
  numbered cur idx n → numbered out idx n.
Proof.
  intros Hsame. unfold numbered.
  destruct n; try (by rewrite Hsame by lia).
  destruct value; [by rewrite Hsame by lia|].
  intros (v & Hv & Hprev). exists v. rewrite Hsame by lia. split; [done|].
  destruct idx as [|prev]; [done|].
  destruct Hprev as (p & k & Hp & Hk & ->). exists p, k.
  by rewrite Hsame by lia.
Qed.

(** One iteration of the numbering loop: the entry at [idx] is numbered,
    the other entries stay. *)
Lemma number_named_values_step (n : SemaNode) (todo : list SemaNode)
    (idx : nat) (cur out : list SemaNode) :
  number_named_values idx (n :: todo) cur = Return out →
  cur !! idx = Some n →
  ∃ cur', number_named_values (S idx) todo cur' = Return out ∧
          length cur' = length cur ∧
          (∀ i, i ≠ idx → cur' !! i = cur !! i) ∧
          numbered cur' idx n.
Proof.
  intros Hrun Hidx. simpl in Hrun.
  assert (Hlt : idx < length cur) by (by eapply lookup_lt_Some).
  assert (Hsame : number_named_values (S idx) todo cur = Return out →
            numbered cur idx n →
            ∃ cur', number_named_values (S idx) todo cur' = Return out ∧
                    length cur' = length cur ∧
                    (∀ i, i ≠ idx → cur' !! i = cur !! i) ∧
                    numbered cur' idx n) by (intros; by exists cur).
  destruct n as [| | | | | | | | | | | | | | | | | |identifier [v|]| | | | | | |];
    try (by apply Hsame).
  destruct idx as [|prev].
  - eexists. split; [exact Hrun|]. rewrite length_insert. split_and!; [done| |].
    + intros i Hi. by rewrite list_lookup_insert_ne.
    + exists "0". by rewrite list_lookup_insert_eq by lia.
  - destruct (cur !! prev) as [p|] eqn:Hp; [|done]. simpl in Hrun.
    destruct (attr_value p) as [v| |] eqn:Hv; try done. simpl in Hrun.
    destruct (int_of_attr v) as [k| |] eqn:Hk; try done. simpl in Hrun.
    eexists. split; [exact Hrun|]. rewrite length_insert. split_and!; [done| |].
    + intros i Hi. by rewrite list_lookup_insert_ne.
    + eexists. split; [by rewrite list_lookup_insert_eq by lia|].
      exists p, k. rewrite list_lookup_insert_ne by lia.
      split_and!; [done| |done]. by rewrite Hv.
Qed.

(** The numbering loop started at [idx] leaves the entries before [idx]
    alone and numbers the remaining ones. *)
Lemma number_named_values_spec (todo : list SemaNode) :
  ∀ idx cur out,
    number_named_values idx todo cur = Return out →
    (∀ j, cur !! (idx + j) = todo !! j) →
    length out = length cur ∧ (∀ i, i < idx → out !! i = cur !! i) ∧
    ∀ j n, todo !! j = Some n → numbered out (idx + j) n.
Proof.
  induction todo as [|n todo IH]; intros idx cur out Hrun Hcur.
  - simpl in Hrun. injection Hrun as <-. split_and!; [done..|].
    intros j n. by rewrite lookup_nil.
  - assert (Hidx : cur !! idx = Some n).
    { by rewrite <- (Nat.add_0_r idx), Hcur. }
    destruct (number_named_values_step _ _ _ _ _ Hrun Hidx)
      as (cur' & Hrun' & Hlen' & Hother & Hnum).
    destruct (IH (S idx) cur' out Hrun') as (Hlen & Hbelow & Hall).
    { intros j. rewrite Hother by lia.
      replace (S idx + j) with (idx + S j) by lia. by rewrite Hcur. }
    split_and!.
    + congruence.
    + intros i Hi. rewrite Hbelow by lia. apply Hother. lia.
    + intros [|j] n0 Hj; simpl in Hj.
      * injection Hj as <-. rewrite Nat.add_0_r.
        apply (numbered_stable cur'); [|done].
        intros i Hi. apply Hbelow. lia.
      * replace (idx + S j) with (S idx + j) by lia. by apply Hall.
Qed.

(** C7. Constructing a ValueListType numbers, from left to right, every
    named value that has no explicit value: 0 for the first entry, the
    previous entry's value plus one for the others.  A, B(5), C, D get
    0, 5, 6, 7 and A, B, C get 0, 1, 2. *)
Theorem ValueListType_numbering :
  (∀ create elements c n c',
     ValueListType__init__ create elements c = (Return n, c') →
     1 < length elements →
     ∃ type_name value_list tokens created out,
       elements !! 1 = Some value_list ∧
       Py.iter value_list = Return tokens ∧
       map_M create tokens c = (Return created, c') ∧
       n = ValueListType type_name (Some out) ∧
       length out = length created ∧
       ∀ idx m, created !! idx = Some m → numbered out idx m) ∧
  (∀ c, Ex.values_of <$> (create_sema_node Ex.enum_ABCD c).1 =
        Return [Some (Str "0"); Some (Str "5"); Some (Str "6"); Some (Str "7")]) ∧
  (∀ c, Ex.values_of <$> (create_sema_node Ex.enum_ABC c).1 =
        Return [Some (Str "0"); Some (Str "1"); Some (Str "2")]).
Proof.
  split_and!; [|done..].
  intros create elements c n c' H Hlen. unfold ValueListType__init__ in H.
  apply St_bind_Return in H as (type_name & s1 & H0 & H).
  apply lift_Return in H0 as [H0 ->].
  destruct (decide (1 < length elements)); [|done].
  apply St_bind_Return in H as (value_list & s1 & H1 & H).
  apply lift_Return in H1 as [H1 ->].
  apply St_bind_Return in H as (tokens & s1 & H2 & H).
  apply lift_Return in H2 as [H2 ->].
  apply St_bind_Return in H as (created & s1 & H3 & H).
  apply St_bind_Return in H as (out & s2 & H4 & H).
  apply lift_Return in H4 as [H4 ->]. injection H as <- <-.
  unfold Py.item in H1. destruct (elements !! 1) as [e|] eqn:E1; simplify_eq.
  destruct (number_named_values_spec created 0 created out H4)
    as (Hlen' & _ & Hall); [done|].
  exists type_name, value_list, tokens, created, out. split_and!; try done.
Qed.

Lemma ValueListType_numbering_witness :
  ∃ type_name value_list tokens created out,
    [Str "ENUMERATED"; Group [Ex.named "A"; Ex.numbered "B" "5"]] !! 1
      = Some value_list ∧
    Py.iter value_list = Return tokens ∧
    map_M (_create_sema_node 1) tokens 0 = (Return created, 0) ∧
    ValueListType (Str "ENUMERATED")
      (Some [NamedValue (Str "A") (Some (Str "0"));
             NamedValue (Str "B") (Some (Str "5"))])
      = ValueListType type_name (Some out) ∧
    length out = length created ∧
    ∀ idx m, created !! idx = Some m → numbered out idx m.
Proof.
  apply (proj1 ValueListType_numbering (_create_sema_node 1)
           [Str "ENUMERATED"; Group [Ex.named "A"; Ex.numbered "B" "5"]] 0 _ 0).
  - reflexivity.
  - simpl. lia.
Defined.

(** C9. The text of a TaggedType built from the parse of
    [[2] IMPLICIT INTEGER] is [[2] IMPLICIT INTEGER], and the text of a
    SEQUENCE OF INTEGER with the size constraint 1..10 is
    [SEQUENCE SIZE(1..10) OF INTEGER]. *)
Theorem rendering_round_trip (c : nat) :
  (create_sema_node Ex.tagged_implicit c).1
    = Return (TaggedType None (Some (Str "2")) true
                (SimpleType None (Str "INTEGER"))) ∧
  ((create_sema_node Ex.tagged_implicit c).1 ≫= str_node)
    = Return "[2] IMPLICIT INTEGER" ∧
  (create_sema_node Ex.sequence_of_sized c).1
    = Return (SequenceOfType (Some (SizeConstraint (Raw (Str "1")) (Raw (Str "10"))))
                (SimpleType None (Str "INTEGER"))) ∧
  ((create_sema_node Ex.sequence_of_sized c).1 ≫= str_node)
    = Return "SEQUENCE SIZE(1..10) OF INTEGER".
Proof. by split_and!. Qed.

(** * The module facade *)

Section facade_facts.
Import ModuleFacade.

Lemma user_types_stable assignments cache ut :
  user_types assignments cache = (Return ut, ut) →
  user_types assignments ut = (Return ut, ut).
Proof.
  unfold user_types. destruct cache as [|kv cache].
  - destruct (index_types _ []) as [[[]| |] ut'] eqn:E; intros [= <-]; try done.
    destruct ut' as [|kv' ut']; [by rewrite E|done].
  - by intros [= <-].
Qed.

Lemma get_Some_keys {V} (k : string) (d : list (string * V)) v :
  PyDict.get k d = Some v → k ∈ PyDict.keys d.
Proof.
  induction d as [|[k' v'] d IH]; simpl; [done|].
  destruct (decide (k = k')) as [->|]; [intros _; left|].
  intros H. right. by apply IH.
Qed.

(** With more fuel than there are names left to visit, the resolution of
    a declaration reached from [decl] returns. *)
Lemma resolve_type_decl_returns assignments ut decl :
  user_types assignments ut = (Return ut, ut) →
  (∀ d, rtc (refers ut) decl d → defined ut d) →
  (∀ d, rtc (refers ut) decl d → ¬ tc (refers ut) d d) →
  ∀ fuel path cur,
    rtc (refers ut) decl cur →
    NoDup path →
    (∀ n, n ∈ path → ∃ d', PyDict.get n ut = Some d' ∧ rtc (refers ut) d' cur) →
    length ut < fuel + length path →
    ∃ d, rtc (refers ut) cur d ∧ is_ReferencedType d = false ∧
         resolve_type_decl fuel assignments cur ut = (Return d, ut).
Proof.
  intros Hut Hdef Hacyc. induction fuel as [|fuel IH];
    intros path cur Hreach Hnodup Hpath Hfuel.
  - exfalso.
    assert (length path ≤ length (PyDict.keys ut)).
    { apply submseteq_length, NoDup_submseteq; [done|].
      intros n Hn. destruct (Hpath n Hn) as (d' & Hd' & _).
      by eapply get_Some_keys. }
    unfold PyDict.keys in *. rewrite length_fmap in *. lia.
  - simpl. unfold mbind at 1, St_bind. rewrite Hut.
    assert (Hnonref : is_ReferencedType cur = false →
              ∃ d, rtc (refers ut) cur d ∧ is_ReferencedType d = false ∧
                   (Return cur, ut) = (Return d, ut)) by (exists cur; done).
    destruct cur; try (by apply Hnonref).
    destruct (Hdef _ Hreach) as (name & -> & [d' Hd']).
    unfold mbind, St_bind, lift, getitem; simpl. rewrite Hd'.
    assert (Hstep : refers ut (ReferencedType module_reference (Str name)) d').
    { by exists module_reference, name. }
    destruct (IH (name :: path) d') as (d & Hd & Hnr & Hres).
    + by eapply rtc_r.
    + constructor; [|done]. intros Hin.
      destruct (Hpath _ Hin) as (d'' & Hd'' & Hback). simplify_eq.
      apply (Hacyc _ Hreach). by eapply tc_rtc_r; [apply tc_once|].
    + intros n [->|Hin]%elem_of_cons.
      * by exists d'.
      * destruct (Hpath _ Hin) as (d'' & Hd'' & Hback).
        exists d''. split; [done|]. by eapply rtc_r.
    + simpl. lia.
    + exists d. split_and!; [by eapply rtc_l|done|done].
Qed.

(** The first call fills the cache; that is all the cache changes. *)
Lemma resolve_type_decl_cache assignments cache ut decl fuel :
  user_types assignments cache = (Return ut, ut) →
  resolve_type_decl (S fuel) assignments decl cache
  = resolve_type_decl (S fuel) assignments decl ut.
Proof.
  intros Hut. pose proof (user_types_stable _ _ _ Hut) as Hut'. simpl.
  unfold mbind, St_bind. by rewrite Hut, Hut'.
Qed.

End facade_facts.

(** The example chain: what is reached from T3, and why it has no cycle. *)
Lemma chain_refers d d' :
  ModuleFacade.refers Ex.chain_index d d' →
  Ex.chain_rank d' < Ex.chain_rank d ∧
  d' ∈ [ReferencedType None (Str "T2"); ReferencedType None (Str "T1");
        SimpleType None (Str "INTEGER")].
Proof.
  intros (mr & name & -> & Hget). simpl in Hget.
  destruct (decide (name = "T1")) as [->|?];
    [injection Hget as <-; split; [simpl; lia|repeat constructor]|].
  destruct (decide (name = "T2")) as [->|?];
    [injection Hget as <-; split; [simpl; lia|repeat constructor]|].
  destruct (decide (name = "T3")) as [->|?];
    [injection Hget as <-; split; [simpl; lia|repeat constructor]|].
  done.
Qed.

Lemma chain_reach d :
  rtc (ModuleFacade.refers Ex.chain_index) (ReferencedType None (Str "T3")) d →
  d ∈ [ReferencedType None (Str "T3"); ReferencedType None (Str "T2");
       ReferencedType None (Str "T1"); SimpleType None (Str "INTEGER")].
Proof.
  intros H. apply rtc_inv_r in H as [->|(d' & _ & H)]; [left|].
  apply chain_refers in H as [_ H]. by right.
Qed.

Lemma chain_rank_tc d d' :
  tc (ModuleFacade.refers Ex.chain_index) d d' →
  Ex.chain_rank d' < Ex.chain_rank d.
Proof.
  induction 1 as [x y H|x y z H _ IH]; apply chain_refers in H as [H _]; lia.
Qed.

(** C6. When the chain of reference declarations that starts at [decl] is
    acyclic and every name on it is defined in the module's index,
    [resolve_type_decl] returns (whenever the recursion may go deeper than
    the index is long) the declaration at the end of the chain, which is
    no reference; a declaration that is no reference is returned as it is;
    T3 -> T2 -> T1 -> INTEGER resolves to the INTEGER declaration. *)
Theorem resolve_type_decl_follows_chain :
  (∀ assignments cache ut decl,
     ModuleFacade.user_types assignments cache = (Return ut, ut) →
     (∀ d, rtc (ModuleFacade.refers ut) decl d → ModuleFacade.defined ut d) →
     (∀ d, rtc (ModuleFacade.refers ut) decl d →
           ¬ tc (ModuleFacade.refers ut) d d) →
     ∃ d, rtc (ModuleFacade.refers ut) decl d ∧
          ModuleFacade.is_ReferencedType d = false ∧
          ∀ fuel, length ut < fuel →
            ModuleFacade.resolve_type_decl fuel assignments decl cache
              = (Return d, ut)) ∧
  (∀ assignments cache ut decl fuel,
     ModuleFacade.user_types assignments cache = (Return ut, ut) →
     ModuleFacade.is_ReferencedType decl = false →
     ModuleFacade.resolve_type_decl (S fuel) assignments decl cache
       = (Return decl, ut)) ∧
  (build_semantic_model Ex.chain_tokens 0).1 = Return Ex.chain_assignments ∧
  (∀ fuel,
     (ModuleFacade.resolve_type_decl (4 + fuel) Ex.chain_assignments
        (ReferencedType None (Str "T3")) []).1
       = Return (SimpleType None (Str "INTEGER"))).
Proof.
  split_and!; [| |done|done].
  - intros assignments cache ut decl Hut Hdef Hacyc.
    pose proof (user_types_stable _ _ _ Hut) as Hut'.
    destruct (resolve_type_decl_returns _ _ _ Hut' Hdef Hacyc
                (S (length ut)) [] decl) as (d & Hd & Hnr & _);
      [done|constructor|by intros n ?%elem_of_nil|simpl; lia|].
    exists d. split_and!; [done..|]. intros fuel Hfuel.
    destruct (resolve_type_decl_returns _ _ _ Hut' Hdef Hacyc
                fuel [] decl) as (d2 & Hd2 & Hnr2 & Hres);
      [done|constructor|by intros n ?%elem_of_nil|simpl; lia|].
    assert (d2 = d) as ->.
    { clear -Hd Hnr Hd2 Hnr2. induction Hd as [x|x y z Hxy Hyz IH].
      - destruct Hd2 as [|x y z Hxy _]; [done|].
        destruct Hxy as (? & ? & -> & _). done.
      - destruct Hd2 as [|x y' z' Hxy' Hyz'].
        + destruct Hxy as (? & ? & -> & _). done.
        + destruct Hxy as (? & ? & -> & H1), Hxy' as (? & ? & [= <- <-] & H2).
          simplify_eq. by apply IH. }
    destruct fuel as [|fuel]; [lia|].
    by rewrite (resolve_type_decl_cache _ _ ut).
  - intros assignments cache ut decl fuel Hut Hnr. simpl.
    unfold mbind, St_bind. rewrite Hut. by destruct decl.
Qed.

Lemma resolve_type_decl_follows_chain_witness :
  ∃ d, rtc (ModuleFacade.refers Ex.chain_index) (ReferencedType None (Str "T3")) d ∧
       ModuleFacade.is_ReferencedType d = false ∧
       ∀ fuel, length Ex.chain_index < fuel →
         ModuleFacade.resolve_type_decl fuel Ex.chain_assignments
           (ReferencedType None (Str "T3")) []
         = (Return d, Ex.chain_index).
Proof.
  apply (proj1 resolve_type_decl_follows_chain Ex.chain_assignments []
           Ex.chain_index (ReferencedType None (Str "T3"))).
  - reflexivity.
  - intros d Hd. apply chain_reach in Hd.
    repeat (apply elem_of_cons in Hd as [->|Hd]); simpl; eauto.
    by apply elem_of_nil in Hd.
  - intros d _ Hcyc. apply chain_rank_tc in Hcyc. lia.
Defined.
